(** * OptionletStripper: stripping optionlet volatilities from a cap/floor
      term volatility surface

    Shallow embedding of
    [ql/voltermstructures/interestrate/caplet/optionletstripper.cpp]
    (the constructor and [performCalculations]) and the properties of the
    tenor ladder, the switch strikes, the price differencing and the
    implied standard deviation step.

    - [Real], [Rate], [Time], [Volatility], [DiscountFactor] are C++ [double]:
      IEEE binary64, here the primitive floats of the kernel.
    - [std::vector] is a [list]; [operator[]] is unchecked in C++, here the
      total lookup [!!!] (which reads a default out of range) and the insert
      [<[i:=x]>] (which does nothing out of range).  The predicate [sized]
      states the sizes the constructor fixes; under it every access of the
      two loops of the recomputation pass to a member is in range.  Between
      the loops the pass takes [back()] and [front()] of the strikes of the
      surface, which C++ leaves undefined when the surface has no strike:
      what is said of a pass that completes is meant for a surface with a
      strike.
    - An exception leaves the members as they were when it was thrown: the
      outcome of the pass carries the state in both cases. *)

From Stdlib Require Import ZArith Floats String.
From stdpp Require Import base list.

Set Warnings "-inexact-float".

(** ** Scalars *)

(** The typedefs of ql/types.hpp. *)
Abbreviation Real := float (only parsing).
Abbreviation Rate := float (only parsing).
Abbreviation Time := float (only parsing).
Abbreviation Volatility := float (only parsing).
Abbreviation DiscountFactor := float (only parsing).
Abbreviation Spread := float (only parsing).

#[global] Instance float_inhabited : Inhabited float := populate 0%float.

(** [Date]: the serial number of the day; [Date()] is the null date 0. *)
Abbreviation Date := Z (only parsing).

(** ** Periods

    [Period] is declared in ql/time/period.hpp, outside this translation
    unit.  The constructor only adds periods and compares them, so the type
    and these two operations are taken as an interface.  [a >= b] is read as
    [period_le b a]. *)
Class PeriodOps (Period : Type) := {
  period_add : Period → Period → Period;   (* operator+ *)
  period_le : Period → Period → bool;      (* operator<= *)
  zero_days : Period;                      (* 0*Days, also Period() *)
}.

#[global] Instance period_inhabited `{PeriodOps Period} : Inhabited Period :=
  populate zero_days.

(** [n * p] for [n >= 1], as the sum the constructor builds:
    [p], [p + p], [(p + p) + p], ... *)
Fixpoint period_times `{PeriodOps Period} (n : nat) (p : Period) : Period :=
  match n with
  | 0 => p
  | 1 => p
  | S k => period_add (period_times k p) p
  end.

Module MonthPeriod.
(** A tenor in whole months: "3M" is [M 3], "2Y" is [Y 2]. *)
Record t := M { months : Z }.
Definition Y (n : Z) : t := M (12 * n).
(** Modelled from the spec: the type [Period] with [operator+] and
    [operator<=] (ql/time/period.hpp is missing), for tenors that are whole
    numbers of months as in "3M", "21M", "2Y": a period is its number of
    months, the sum adds them and the order compares them. *)
#[global] Instance ops : PeriodOps t :=
  {| period_add := λ a b, M (months a + months b);
     period_le := λ a b, (months a <=? months b)%Z;
     zero_days := M 0 |}.
End MonthPeriod.

(** ** Outcomes of the constructor *)

Inductive Outcome (A : Type) : Type :=
| Returns (a : A)          (* the object is built *)
| Throws (what : string)   (* QL_REQUIRE failed *)
| Undefined                (* back() of an empty vector *)
| OutOfFuel.               (* the loop did not stop within the bound of the model *)
Arguments Returns {A} a.
Arguments Throws {A} what.
Arguments Undefined {A}.
Arguments OutOfFuel {A}.

(** ** Vectors and matrices *)

(** [v.back()] of a vector known to be non-empty. *)
Definition back {A} `{Inhabited A} (v : list A) : A := default inhabitant (last v).
Definition front {A} `{Inhabited A} (v : list A) : A := v !!! 0.

(** [operator==] of [std::vector<Rate>]: same size and equal elements. *)
Definition vector_eq (a b : list Rate) : bool :=
  (length a =? length b) && forallb (λ p, PrimFloat.eqb p.1 p.2) (zip a b).

(** [Matrix]: rows of columns.  [Matrix(rows, columns)] leaves the cells
    unspecified (here 0); [Matrix(rows, columns, value)] fills them. *)
Definition Matrix := list (list Real).
Definition Matrix_new (rows columns : nat) (value : Real) : Matrix :=
  replicate rows (replicate columns value).
Definition Matrix_uninit (rows columns : nat) : Matrix := Matrix_new rows columns 0%float.

(** [m[i][j]] and [m[i][j] = v]. *)
Definition mget {A} `{Inhabited A} (m : list (list A)) (i j : nat) : A := (m !!! i) !!! j.
Definition mset {A} (i j : nat) (v : A) (m : list (list A)) : list (list A) :=
  alter (λ row, <[j := v]> row) i m.

(** Every row of [m] has [columns] cells and there are [rows] of them. *)
Definition dims {A} (rows columns : nat) (m : list (list A)) : Prop :=
  length m = rows ∧ Forall (λ row, length row = columns) m.

(** ** The collaborators and the stripper *)

Inductive CapFloorType := Cap | Floor.   (* CapFloor::Type *)
Inductive OptionType := Call | Put.      (* Option::Type *)

Record DayCounter := { yearFraction : Date → Date → Time }.

Record BlackCapFloorEngine := {
  engineVolatility : Volatility;
  engineDayCounter : DayCounter;
}.

(** What [QL_FAIL] streams into the message of a failed bootstrap. *)
Record Diagnostic := {
  diag_date : Date;
  diag_type : OptionType;
  diag_strike : Rate;
  diag_atm : Rate;
  diag_price : Real;
  diag_annuity : DiscountFactor;
  diag_what : string;           (* e.what() of the solver *)
}.

Section Stripper.
Context {Period : Type} `{PeriodOps Period}.

Record CapFloorTermVolSurface := {
  optionTenors : list Period;
  strikes : list Rate;
  referenceDate : Date;
  dayCounter : DayCounter;
  volatility : Period → Rate → bool → Volatility;   (* length, strike, extrapolate *)
}.

Record IborIndex := {
  tenor : Period;
  forecastFixing : Date → Rate;
}.

(** The instrument [MakeCapFloor(type, tenor, index, strike, forwardStart,
    engine)] converts to. *)
Record CapFloor := MakeCapFloor {
  capFloorType : CapFloorType;
  capFloorTenor : Period;
  capFloorIndex : IborIndex;
  capFloorStrike : Rate;
  forwardStart : Period;
  pricingEngine : BlackCapFloorEngine;
}.

(** The members of the class, in the order of their first use. *)
Record OptionletStripper := {
  surface_ : CapFloorTermVolSurface;
  index_ : IborIndex;
  nStrikes_ : nat;
  switchStrikes_ : list Rate;
  optionletTenors_ : list Period;
  capfloorLengths_ : list Period;
  nOptionletTenors_ : nat;
  capfloorPrices_ : Matrix;
  optionletPrices_ : Matrix;
  capfloorVols_ : Matrix;
  optionletVols_ : Matrix;
  optionletStDevs_ : Matrix;
  atmOptionletRate : list Rate;
  optionletDates_ : list Date;
  optionletTimes_ : list Time;
  optionletAccrualPeriods_ : list Time;
  capfloors_ : list (list (option CapFloor));   (* shared_ptr<CapFloor>, None when null *)
}.

(** *** The constructor *)

(** The [while] loop of the constructor (lines 50-53); one unit of fuel
    per test of its condition. *)
Fixpoint tenor_loop (fuel : nat) (indexTenor maxCapFloorTenor : Period)
    (optionletTenors capfloorLengths : list Period)
    : option (list Period * list Period) :=
  match fuel with
  | 0 => None
  | S fuel' =>
      if period_le (period_add (back capfloorLengths) indexTenor) maxCapFloorTenor then
        let optionletTenors' :=
          optionletTenors ++ [period_add (back optionletTenors) indexTenor] in
        let capfloorLengths' :=
          capfloorLengths ++ [period_add (back optionletTenors') indexTenor] in
        tenor_loop fuel' indexTenor maxCapFloorTenor optionletTenors' capfloorLengths'
      else Some (optionletTenors, capfloorLengths)
  end.

(** Lines 46-53: the optionlet tenors and the capfloor lengths. *)
Definition tenor_grid (fuel : nat) (indexTenor maxCapFloorTenor : Period)
    : Outcome (list Period * list Period) :=
  let optionletTenors := [indexTenor] in
  let capfloorLengths := [period_add (back optionletTenors) indexTenor] in
  if negb (period_le (back capfloorLengths) maxCapFloorTenor) then
    Throws "too short capfloor term vol surface"
  else
    match tenor_loop fuel indexTenor maxCapFloorTenor optionletTenors capfloorLengths with
    | None => OutOfFuel
    | Some grid => Returns grid
    end.

(** Lines 68-72: the switch strikes kept for [n] optionlet tenors. *)
Definition normalize_switchStrikes (n : nat) (switchStrikes : list Rate) : list Rate :=
  let switchStrikes_ := switchStrikes in
  let switchStrikes_ :=
    if length switchStrikes =? 1 then replicate n (switchStrikes !!! 0)
    else switchStrikes_ in
  let switchStrikes_ :=
    if vector_eq switchStrikes [] then replicate n 0.04%float
    else switchStrikes_ in
  switchStrikes_.

Definition firstGuess : Real := 0.14%float.

(** [OptionletStripper::OptionletStripper(surface, index, switchStrikes)].
    The registrations with the observables are left out. *)
Definition OptionletStripper_new (fuel : nat) (surface : CapFloorTermVolSurface)
    (index : IborIndex) (switchStrikes : list Rate) : Outcome OptionletStripper :=
  let nStrikes := length (strikes surface) in
  let indexTenor := tenor index in
  match last (optionTenors surface) with
  | None => Undefined
  | Some maxCapFloorTenor =>
      match tenor_grid fuel indexTenor maxCapFloorTenor with
      | Returns (optionletTenors, capfloorLengths) =>
          let nOptionletTenors := length optionletTenors in
          let switchStrikes' := normalize_switchStrikes nOptionletTenors switchStrikes in
          if nOptionletTenors =? length switchStrikes' then
            Returns {|
              surface_ := surface;
              index_ := index;
              nStrikes_ := nStrikes;
              switchStrikes_ := switchStrikes';
              optionletTenors_ := optionletTenors;
              capfloorLengths_ := capfloorLengths;
              nOptionletTenors_ := nOptionletTenors;
              capfloorPrices_ := Matrix_uninit nOptionletTenors nStrikes;
              optionletPrices_ := Matrix_uninit nOptionletTenors nStrikes;
              capfloorVols_ := Matrix_uninit nOptionletTenors nStrikes;
              optionletVols_ := Matrix_uninit nOptionletTenors nStrikes;
              optionletStDevs_ := Matrix_new nOptionletTenors nStrikes firstGuess;
              atmOptionletRate := replicate nOptionletTenors 0%float;
              optionletDates_ := replicate nOptionletTenors 0%Z;
              optionletTimes_ := replicate nOptionletTenors 0%float;
              optionletAccrualPeriods_ := replicate nOptionletTenors 0%float;
              capfloors_ := replicate nOptionletTenors [];
            |}
          else Throws "nOptionletTenors_!=switchStrikes_.size()"
      | Throws what => Throws what
      | Undefined => Undefined
      | OutOfFuel => OutOfFuel
      end
  end.

(** *** Assignments to the mutable members

    [set_m f s] is [s] with the member [m] replaced by [f m]. *)

Definition set_capfloorPrices_ (f : Matrix → Matrix) (s : OptionletStripper) : OptionletStripper :=
  {| surface_ := surface_ s; index_ := index_ s; nStrikes_ := nStrikes_ s;
     switchStrikes_ := switchStrikes_ s; optionletTenors_ := optionletTenors_ s;
     capfloorLengths_ := capfloorLengths_ s; nOptionletTenors_ := nOptionletTenors_ s;
     capfloorPrices_ := f (capfloorPrices_ s); optionletPrices_ := optionletPrices_ s;
     capfloorVols_ := capfloorVols_ s; optionletVols_ := optionletVols_ s;
     optionletStDevs_ := optionletStDevs_ s; atmOptionletRate := atmOptionletRate s;
     optionletDates_ := optionletDates_ s; optionletTimes_ := optionletTimes_ s;
     optionletAccrualPeriods_ := optionletAccrualPeriods_ s; capfloors_ := capfloors_ s |}.

Definition set_optionletPrices_ (f : Matrix → Matrix) (s : OptionletStripper) : OptionletStripper :=
  {| surface_ := surface_ s; index_ := index_ s; nStrikes_ := nStrikes_ s;
     switchStrikes_ := switchStrikes_ s; optionletTenors_ := optionletTenors_ s;
     capfloorLengths_ := capfloorLengths_ s; nOptionletTenors_ := nOptionletTenors_ s;
     capfloorPrices_ := capfloorPrices_ s; optionletPrices_ := f (optionletPrices_ s);
     capfloorVols_ := capfloorVols_ s; optionletVols_ := optionletVols_ s;
     optionletStDevs_ := optionletStDevs_ s; atmOptionletRate := atmOptionletRate s;
     optionletDates_ := optionletDates_ s; optionletTimes_ := optionletTimes_ s;
     optionletAccrualPeriods_ := optionletAccrualPeriods_ s; capfloors_ := capfloors_ s |}.

Definition set_capfloorVols_ (f : Matrix → Matrix) (s : OptionletStripper) : OptionletStripper :=
  {| surface_ := surface_ s; index_ := index_ s; nStrikes_ := nStrikes_ s;
     switchStrikes_ := switchStrikes_ s; optionletTenors_ := optionletTenors_ s;
     capfloorLengths_ := capfloorLengths_ s; nOptionletTenors_ := nOptionletTenors_ s;
     capfloorPrices_ := capfloorPrices_ s; optionletPrices_ := optionletPrices_ s;
     capfloorVols_ := f (capfloorVols_ s); optionletVols_ := optionletVols_ s;
     optionletStDevs_ := optionletStDevs_ s; atmOptionletRate := atmOptionletRate s;
     optionletDates_ := optionletDates_ s; optionletTimes_ := optionletTimes_ s;
     optionletAccrualPeriods_ := optionletAccrualPeriods_ s; capfloors_ := capfloors_ s |}.

Definition set_optionletVols_ (f : Matrix → Matrix) (s : OptionletStripper) : OptionletStripper :=
  {| surface_ := surface_ s; index_ := index_ s; nStrikes_ := nStrikes_ s;
     switchStrikes_ := switchStrikes_ s; optionletTenors_ := optionletTenors_ s;
     capfloorLengths_ := capfloorLengths_ s; nOptionletTenors_ := nOptionletTenors_ s;
     capfloorPrices_ := capfloorPrices_ s; optionletPrices_ := optionletPrices_ s;
     capfloorVols_ := capfloorVols_ s; optionletVols_ := f (optionletVols_ s);
     optionletStDevs_ := optionletStDevs_ s; atmOptionletRate := atmOptionletRate s;
     optionletDates_ := optionletDates_ s; optionletTimes_ := optionletTimes_ s;
     optionletAccrualPeriods_ := optionletAccrualPeriods_ s; capfloors_ := capfloors_ s |}.

Definition set_optionletStDevs_ (f : Matrix → Matrix) (s : OptionletStripper) : OptionletStripper :=
  {| surface_ := surface_ s; index_ := index_ s; nStrikes_ := nStrikes_ s;
     switchStrikes_ := switchStrikes_ s; optionletTenors_ := optionletTenors_ s;
     capfloorLengths_ := capfloorLengths_ s; nOptionletTenors_ := nOptionletTenors_ s;
     capfloorPrices_ := capfloorPrices_ s; optionletPrices_ := optionletPrices_ s;
     capfloorVols_ := capfloorVols_ s; optionletVols_ := optionletVols_ s;
     optionletStDevs_ := f (optionletStDevs_ s); atmOptionletRate := atmOptionletRate s;
     optionletDates_ := optionletDates_ s; optionletTimes_ := optionletTimes_ s;
     optionletAccrualPeriods_ := optionletAccrualPeriods_ s; capfloors_ := capfloors_ s |}.

Definition set_atmOptionletRate (f : list Rate → list Rate) (s : OptionletStripper) : OptionletStripper :=
  {| surface_ := surface_ s; index_ := index_ s; nStrikes_ := nStrikes_ s;
     switchStrikes_ := switchStrikes_ s; optionletTenors_ := optionletTenors_ s;
     capfloorLengths_ := capfloorLengths_ s; nOptionletTenors_ := nOptionletTenors_ s;
     capfloorPrices_ := capfloorPrices_ s; optionletPrices_ := optionletPrices_ s;
     capfloorVols_ := capfloorVols_ s; optionletVols_ := optionletVols_ s;
     optionletStDevs_ := optionletStDevs_ s; atmOptionletRate := f (atmOptionletRate s);
     optionletDates_ := optionletDates_ s; optionletTimes_ := optionletTimes_ s;
     optionletAccrualPeriods_ := optionletAccrualPeriods_ s; capfloors_ := capfloors_ s |}.

Definition set_optionletDates_ (f : list Date → list Date) (s : OptionletStripper) : OptionletStripper :=
  {| surface_ := surface_ s; index_ := index_ s; nStrikes_ := nStrikes_ s;
     switchStrikes_ := switchStrikes_ s; optionletTenors_ := optionletTenors_ s;
     capfloorLengths_ := capfloorLengths_ s; nOptionletTenors_ := nOptionletTenors_ s;
     capfloorPrices_ := capfloorPrices_ s; optionletPrices_ := optionletPrices_ s;
     capfloorVols_ := capfloorVols_ s; optionletVols_ := optionletVols_ s;
     optionletStDevs_ := optionletStDevs_ s; atmOptionletRate := atmOptionletRate s;
     optionletDates_ := f (optionletDates_ s); optionletTimes_ := optionletTimes_ s;
     optionletAccrualPeriods_ := optionletAccrualPeriods_ s; capfloors_ := capfloors_ s |}.

Definition set_optionletTimes_ (f : list Time → list Time) (s : OptionletStripper) : OptionletStripper :=
  {| surface_ := surface_ s; index_ := index_ s; nStrikes_ := nStrikes_ s;
     switchStrikes_ := switchStrikes_ s; optionletTenors_ := optionletTenors_ s;
     capfloorLengths_ := capfloorLengths_ s; nOptionletTenors_ := nOptionletTenors_ s;
     capfloorPrices_ := capfloorPrices_ s; optionletPrices_ := optionletPrices_ s;
     capfloorVols_ := capfloorVols_ s; optionletVols_ := optionletVols_ s;
     optionletStDevs_ := optionletStDevs_ s; atmOptionletRate := atmOptionletRate s;
     optionletDates_ := optionletDates_ s; optionletTimes_ := f (optionletTimes_ s);
     optionletAccrualPeriods_ := optionletAccrualPeriods_ s; capfloors_ := capfloors_ s |}.

Definition set_optionletAccrualPeriods_ (f : list Time → list Time) (s : OptionletStripper) : OptionletStripper :=
  {| surface_ := surface_ s; index_ := index_ s; nStrikes_ := nStrikes_ s;
     switchStrikes_ := switchStrikes_ s; optionletTenors_ := optionletTenors_ s;
     capfloorLengths_ := capfloorLengths_ s; nOptionletTenors_ := nOptionletTenors_ s;
     capfloorPrices_ := capfloorPrices_ s; optionletPrices_ := optionletPrices_ s;
     capfloorVols_ := capfloorVols_ s; optionletVols_ := optionletVols_ s;
     optionletStDevs_ := optionletStDevs_ s; atmOptionletRate := atmOptionletRate s;
     optionletDates_ := optionletDates_ s; optionletTimes_ := optionletTimes_ s;
     optionletAccrualPeriods_ := f (optionletAccrualPeriods_ s);
     capfloors_ := capfloors_ s |}.

Definition set_capfloors_ (f : list (list (option CapFloor)) → list (list (option CapFloor))) (s : OptionletStripper) : OptionletStripper :=
  {| surface_ := surface_ s; index_ := index_ s; nStrikes_ := nStrikes_ s;
     switchStrikes_ := switchStrikes_ s; optionletTenors_ := optionletTenors_ s;
     capfloorLengths_ := capfloorLengths_ s; nOptionletTenors_ := nOptionletTenors_ s;
     capfloorPrices_ := capfloorPrices_ s; optionletPrices_ := optionletPrices_ s;
     capfloorVols_ := capfloorVols_ s; optionletVols_ := optionletVols_ s;
     optionletStDevs_ := optionletStDevs_ s; atmOptionletRate := atmOptionletRate s;
     optionletDates_ := optionletDates_ s; optionletTimes_ := optionletTimes_ s;
     optionletAccrualPeriods_ := optionletAccrualPeriods_ s;
     capfloors_ := f (capfloors_ s) |}.

(** *** The recomputation pass

    A computation on the members either completes with a value or throws;
    the members as they are at that point are part of both outcomes. *)
Inductive Run (A : Type) : Type :=
| Ok (a : A) (s : OptionletStripper)
| Raise (d : Diagnostic) (s : OptionletStripper).
Arguments Ok {A} a s.
Arguments Raise {A} d s.

Definition Calc (A : Type) : Type := OptionletStripper → Run A.

Definition ret {A} (a : A) : Calc A := λ s, Ok a s.
Definition bind {A B} (c : Calc A) (k : A → Calc B) : Calc B :=
  λ s, match c s with
       | Ok a s' => k a s'
       | Raise d s' => Raise d s'
       end.
Definition this : Calc OptionletStripper := λ s, Ok s s.
Definition assign (upd : OptionletStripper → OptionletStripper) : Calc unit :=
  λ s, Ok () (upd s).
Definition QL_FAIL {A} (d : Diagnostic) : Calc A := λ s, Raise d s.

Notation "x <- c ;; k" := (bind c (λ x, k))
  (at level 100, c at next level, right associativity).
Notation "c ;; k" := (bind c (λ _, k))
  (at level 100, right associativity).

(** [for (Size i = ...; ...; ++i) body], over the indices [idx], with the
    local variable [a] the body reads and updates. *)
Fixpoint for_each {A} (idx : list nat) (body : nat → A → Calc A) (a : A) : Calc A :=
  match idx with
  | [] => ret a
  | i :: rest => a' <- body i a ;; for_each rest body a'
  end.

(** The collaborators the pass calls: the instrument built by [MakeCapFloor]
    answers [lastFixingDate()], [NPV()] and
    [discountCurve()->discount(date)]; [blackFormulaImpliedStdDev(type,
    strike, forward, price, annuity, guess)] returns the standard deviation
    or throws ([inl] of its [what()]).  They are defined in other
    translation units and are taken as an interface. *)
Class Pricing := {
  lastFixingDate : CapFloor → Date;
  NPV : CapFloor → Real;
  discount : CapFloor → Date → DiscountFactor;
  blackFormulaImpliedStdDev :
    OptionType → Rate → Rate → Real → DiscountFactor → Real → string + Real;
}.
Context `{Pricing}.

#[global] Instance CapFloorType_eq_dec : EqDecision CapFloorType.
Proof. solve_decision. Defined.

(** [p->f()] for a handle [p] of the instrument matrix. *)
Definition deref {A} `{Inhabited A} (f : CapFloor → A) (p : option CapFloor) : A :=
  from_option f inhabitant p.

(** Lines 82-95: the body of the first loop, for the period [i]. *)
Definition period_body (i : nat) (_ : unit) : Calc unit :=
  s <- this ;;
  let referenceDate := referenceDate (surface_ s) in
  let dc := dayCounter (surface_ s) in
  let dummy := {| engineVolatility := 0.20%float; engineDayCounter := dc |} in
  let temp := MakeCapFloor Cap (capfloorLengths_ s !!! i) (index_ s)
                           0.04%float (* dummy strike *) zero_days dummy in
  assign (set_optionletDates_ <[i := lastFixingDate temp]>) ;;
  assign (set_optionletAccrualPeriods_ <[i := 0.5%float]>) ;;
  s <- this ;;
  assign (set_optionletTimes_
            <[i := yearFraction dc referenceDate (optionletDates_ s !!! i)]>) ;;
  s <- this ;;
  assign (set_atmOptionletRate
            <[i := forecastFixing (index_ s) (optionletDates_ s !!! i)]>) ;;
  s <- this ;;
  assign (set_capfloors_ (alter (resize (nStrikes_ s) None) i)).

(** The choice of the instrument and of the optionlet (lines 104-107). *)
Definition capFloorType_of (strike switchStrike : Rate) : CapFloorType :=
  if (strike <? switchStrike)%float then Floor else Cap.
Definition optionletType_of (capFloorType : CapFloorType) : OptionType :=
  if decide (capFloorType = Floor) then Put else Call.

(** Lines 103-143: the body of the inner loop, for the strike [j] and the
    period [i]; the value is the new [previousCapFloorPrice]. *)
Definition cell_body (j i : nat) (previousCapFloorPrice : Real) : Calc Real :=
  s <- this ;;
  let strikes := strikes (surface_ s) in
  let dc := dayCounter (surface_ s) in
  (* using out-of-the-money options *)
  let capFloorType := capFloorType_of (strikes !!! j) (switchStrikes_ s !!! i) in
  let optionletType := optionletType_of capFloorType in
  assign (set_capfloorVols_
            (mset i j (volatility (surface_ s) (capfloorLengths_ s !!! i)
                                  (strikes !!! j) true))) ;;
  s <- this ;;
  let engine := {| engineVolatility := mget (capfloorVols_ s) i j;
                   engineDayCounter := dc |} in
  assign (set_capfloors_
            (mset i j (Some (MakeCapFloor capFloorType (capfloorLengths_ s !!! i)
                                          (index_ s) (strikes !!! j) zero_days
                                          engine)))) ;;
  s <- this ;;
  assign (set_capfloorPrices_ (mset i j (deref NPV (mget (capfloors_ s) i j)))) ;;
  s <- this ;;
  assign (set_optionletPrices_
            (mset i j (mget (capfloorPrices_ s) i j - previousCapFloorPrice)%float)) ;;
  s <- this ;;
  let previousCapFloorPrice := mget (capfloorPrices_ s) i j in
  let d := deref (λ c, discount c (optionletDates_ s !!! i)) (mget (capfloors_ s) i j) in
  let optionletAnnuity := (optionletAccrualPeriods_ s !!! i * d)%float in
  match blackFormulaImpliedStdDev optionletType (strikes !!! j)
          (atmOptionletRate s !!! i) (mget (optionletPrices_ s) i j)
          optionletAnnuity (mget (optionletStDevs_ s) i j) with
  | inr stdDev => assign (set_optionletStDevs_ (mset i j stdDev))
  | inl what =>
      QL_FAIL {| diag_date := optionletDates_ s !!! i;
                 diag_type := optionletType;
                 diag_strike := strikes !!! j;
                 diag_atm := atmOptionletRate s !!! i;
                 diag_price := mget (optionletPrices_ s) i j;
                 diag_annuity := optionletAnnuity;
                 diag_what := what |}
  end ;;
  s <- this ;;
  assign (set_optionletVols_
            (mset i j (mget (optionletStDevs_ s) i j
                       / PrimFloat.sqrt (optionletTimes_ s !!! i))%float)) ;;
  ret previousCapFloorPrice.

(** Lines 100-146: for the strike [j], the periods in turn, starting from a
    previous price of 0. *)
Definition strike_body (j : nat) (_ : unit) : Calc unit :=
  s <- this ;;
  let previousCapFloorPrice := 0.0%float in
  for_each (seq 0 (nOptionletTenors_ s)) (cell_body j) previousCapFloorPrice ;;
  ret ().

(** [OptionletStripper::performCalculations()].  The fixing calendar and
    the strike range are read and not used; the strike range is
    [strikes.back()-strikes.front()], undefined in C++ on a surface without
    strikes, where [back] and [front] read the default here. *)
Definition performCalculations : Calc unit :=
  s <- this ;;
  for_each (seq 0 (nOptionletTenors_ s)) period_body () ;;
  s <- this ;;
  let strikes := strikes (surface_ s) in
  let strikeRange : Spread := (back strikes - front strikes)%float in
  for_each (seq 0 (nStrikes_ s)) strike_body ().

(** [OptionletStripper::strikes()] and [OptionletStripper::surface()]. *)
Definition OptionletStripper_strikes (s : OptionletStripper) : list Rate :=
  strikes (surface_ s).
Definition OptionletStripper_surface (s : OptionletStripper) : CapFloorTermVolSurface :=
  surface_ s.

(** ** Vocabulary of the properties *)

(** [a < b] on periods, as [!(b <= a)]. *)
Definition period_lt (a b : Period) : bool := negb (period_le b a).

(** The sizes the constructor fixes: [nOptionletTenors_] entries per vector,
    [nOptionletTenors_] rows of [nStrikes_] cells per matrix.  The rows of
    [capfloors_] get their size in the pass. *)
Record sized (s : OptionletStripper) : Prop := {
  sized_switchStrikes : length (switchStrikes_ s) = nOptionletTenors_ s;
  sized_optionletTenors : length (optionletTenors_ s) = nOptionletTenors_ s;
  sized_capfloorLengths : length (capfloorLengths_ s) = nOptionletTenors_ s;
  sized_capfloorPrices : dims (nOptionletTenors_ s) (nStrikes_ s) (capfloorPrices_ s);
  sized_optionletPrices : dims (nOptionletTenors_ s) (nStrikes_ s) (optionletPrices_ s);
  sized_capfloorVols : dims (nOptionletTenors_ s) (nStrikes_ s) (capfloorVols_ s);
  sized_optionletVols : dims (nOptionletTenors_ s) (nStrikes_ s) (optionletVols_ s);
  sized_optionletStDevs : dims (nOptionletTenors_ s) (nStrikes_ s) (optionletStDevs_ s);
  sized_atmOptionletRate : length (atmOptionletRate s) = nOptionletTenors_ s;
  sized_optionletDates : length (optionletDates_ s) = nOptionletTenors_ s;
  sized_optionletTimes : length (optionletTimes_ s) = nOptionletTenors_ s;
  sized_optionletAccrualPeriods :
    length (optionletAccrualPeriods_ s) = nOptionletTenors_ s;
  sized_capfloors : length (capfloors_ s) = nOptionletTenors_ s;
}.

(** The members the pass never assigns are the same in [s] and [s']. *)
Record same_grid (s s' : OptionletStripper) : Prop := {
  same_surface : surface_ s' = surface_ s;
  same_index : index_ s' = index_ s;
  same_nStrikes : nStrikes_ s' = nStrikes_ s;
  same_switchStrikes : switchStrikes_ s' = switchStrikes_ s;
  same_optionletTenors : optionletTenors_ s' = optionletTenors_ s;
  same_capfloorLengths : capfloorLengths_ s' = capfloorLengths_ s;
  same_nOptionletTenors : nOptionletTenors_ s' = nOptionletTenors_ s;
}.

(** What the pass computes for the period [i] and the cell [(i, j)], read
    off the members of [s] the pass does not assign (and, for the guess of
    the solver, off [optionletStDevs_] as it is when the pass starts). *)
Definition strike_of (s : OptionletStripper) (j : nat) : Rate :=
  strikes (surface_ s) !!! j.

Definition fixingDate_of (s : OptionletStripper) (i : nat) : Date :=
  lastFixingDate
    (MakeCapFloor Cap (capfloorLengths_ s !!! i) (index_ s) 0.04%float zero_days
       {| engineVolatility := 0.20%float;
          engineDayCounter := dayCounter (surface_ s) |}).

Definition time_of (s : OptionletStripper) (i : nat) : Time :=
  yearFraction (dayCounter (surface_ s)) (referenceDate (surface_ s))
    (fixingDate_of s i).

Definition atm_of (s : OptionletStripper) (i : nat) : Rate :=
  forecastFixing (index_ s) (fixingDate_of s i).

Definition side_of (s : OptionletStripper) (i j : nat) : CapFloorType :=
  capFloorType_of (strike_of s j) (switchStrikes_ s !!! i).

Definition marketVol_of (s : OptionletStripper) (i j : nat) : Volatility :=
  volatility (surface_ s) (capfloorLengths_ s !!! i) (strike_of s j) true.

Definition instrument_of (s : OptionletStripper) (i j : nat) : CapFloor :=
  MakeCapFloor (side_of s i j) (capfloorLengths_ s !!! i) (index_ s)
    (strike_of s j) zero_days
    {| engineVolatility := marketVol_of s i j;
       engineDayCounter := dayCounter (surface_ s) |}.

Definition capfloorPrice_of (s : OptionletStripper) (i j : nat) : Real :=
  NPV (instrument_of s i j).

Definition previousPrice_of (s : OptionletStripper) (i j : nat) : Real :=
  match i with
  | 0 => 0.0%float
  | S k => capfloorPrice_of s k j
  end.

Definition optionletPrice_of (s : OptionletStripper) (i j : nat) : Real :=
  (capfloorPrice_of s i j - previousPrice_of s i j)%float.

Definition discount_of (s : OptionletStripper) (i j : nat) : DiscountFactor :=
  discount (instrument_of s i j) (fixingDate_of s i).

(** The call of the solver for the cell [(i, j)] with the annuity
    [annuity] and the guess [guess]. *)
Definition inversion_of (s : OptionletStripper) (i j : nat)
    (annuity : DiscountFactor) (guess : Real) : string + Real :=
  blackFormulaImpliedStdDev (optionletType_of (side_of s i j)) (strike_of s j)
    (atm_of s i) (optionletPrice_of s i j) annuity guess.

Definition diagnostic_of (s : OptionletStripper) (i j : nat)
    (annuity : DiscountFactor) (what : string) : Diagnostic :=
  {| diag_date := fixingDate_of s i;
     diag_type := optionletType_of (side_of s i j);
     diag_strike := strike_of s j;
     diag_atm := atm_of s i;
     diag_price := optionletPrice_of s i j;
     diag_annuity := annuity;
     diag_what := what |}.

(** The solver as the pass calls it for the cell [(i, j)]: the annuity is
    the accrual period times the discount factor, the guess is the cell of
    [optionletStDevs_]. *)
Definition solve (s : OptionletStripper) (i j : nat) : string + Real :=
  inversion_of s i j (0.5 * discount_of s i j)%float (mget (optionletStDevs_ s) i j).

(** The cell [(i, j)] is handled before the cell [(i0, j0)]: the strikes are
    the outer loop, the periods the inner one. *)
Definition before (i j i0 j0 : nat) : Prop := j < j0 ∨ (j = j0 ∧ i < i0).

(** The prices of the cell [(i, j)] of [s'] are the ones the pass started
    on [s] writes. *)
Definition priced (s s' : OptionletStripper) (i j : nat) : Prop :=
  mget (capfloorVols_ s') i j = marketVol_of s i j ∧
  mget (capfloors_ s') i j = Some (instrument_of s i j) ∧
  mget (capfloorPrices_ s') i j = capfloorPrice_of s i j ∧
  mget (optionletPrices_ s') i j = optionletPrice_of s i j.

(** The cell [(i, j)] of [s'] is completely computed. *)
Definition stripped (s s' : OptionletStripper) (i j : nat) : Prop :=
  priced s s' i j ∧
  solve s i j = inr (mget (optionletStDevs_ s') i j) ∧
  mget (optionletVols_ s') i j =
    (mget (optionletStDevs_ s') i j / PrimFloat.sqrt (time_of s i))%float.

(** The standard deviation and the volatility of the cell are the old ones. *)
Definition kept (s s' : OptionletStripper) (i j : nat) : Prop :=
  mget (optionletStDevs_ s') i j = mget (optionletStDevs_ s) i j ∧
  mget (optionletVols_ s') i j = mget (optionletVols_ s) i j.

(** No assignment of the second loop has reached the cell [(i, j)]. *)
Definition untouched (s s' : OptionletStripper) (i j : nat) : Prop :=
  mget (capfloorVols_ s') i j = mget (capfloorVols_ s) i j ∧
  mget (capfloors_ s') i j = mget (capfloors_ s) i j ∧
  mget (capfloorPrices_ s') i j = mget (capfloorPrices_ s) i j ∧
  mget (optionletPrices_ s') i j = mget (optionletPrices_ s) i j ∧
  kept s s' i j.

(** The per-period vectors of [s'] are the ones the first loop writes. *)
Definition periods_set (s s' : OptionletStripper) : Prop :=
  ∀ i, i < nOptionletTenors_ s →
    optionletDates_ s' !!! i = fixingDate_of s i ∧
    optionletAccrualPeriods_ s' !!! i = 0.5%float ∧
    optionletTimes_ s' !!! i = time_of s i ∧
    atmOptionletRate s' !!! i = atm_of s i.

(** The pass started on [s] has handled exactly the cells before
    [(i0, j0)]. *)
Record progress (s s' : OptionletStripper) (i0 j0 : nat) : Prop := {
  progress_grid : same_grid s s';
  progress_sized : sized s';
  progress_rows : Forall (λ row, length row = nStrikes_ s) (capfloors_ s');
  progress_periods : periods_set s s';
  progress_done : ∀ i j, i < nOptionletTenors_ s → j < nStrikes_ s →
      before i j i0 j0 → stripped s s' i j;
  progress_todo : ∀ i j, i < nOptionletTenors_ s → j < nStrikes_ s →
      ¬ before i j i0 j0 → untouched s s' i j;
}.

(** The pass started on [s] has thrown [d] in the cell [(i0, j0)] and left
    [s']. *)
Record failed_at (s : OptionletStripper) (d : Diagnostic) (s' : OptionletStripper)
    (i0 j0 : nat) : Prop := {
  failed_grid : same_grid s s';
  failed_sized : sized s';
  failed_periods : periods_set s s';
  failed_cell : i0 < nOptionletTenors_ s ∧ j0 < nStrikes_ s;
  failed_solver : ∃ what, solve s i0 j0 = inl what ∧
      d = diagnostic_of s i0 j0 (0.5 * discount_of s i0 j0)%float what;
  failed_here : priced s s' i0 j0 ∧ kept s s' i0 j0;
  failed_done : ∀ i j, i < nOptionletTenors_ s → j < nStrikes_ s →
      before i j i0 j0 → stripped s s' i j;
  failed_todo : ∀ i j, i < nOptionletTenors_ s → j < nStrikes_ s →
      ¬ before i j i0 j0 → (i, j) ≠ (i0, j0) → untouched s s' i j;
}.

(** The first loop has handled the periods below [k]: no price, volatility
    or standard deviation has changed yet. *)
Record warmup (s s' : OptionletStripper) (k : nat) : Prop := {
  warmup_grid : same_grid s s';
  warmup_sized : sized s';
  warmup_capfloorPrices : capfloorPrices_ s' = capfloorPrices_ s;
  warmup_optionletPrices : optionletPrices_ s' = optionletPrices_ s;
  warmup_capfloorVols : capfloorVols_ s' = capfloorVols_ s;
  warmup_optionletVols : optionletVols_ s' = optionletVols_ s;
  warmup_optionletStDevs : optionletStDevs_ s' = optionletStDevs_ s;
  warmup_rows : ∀ i, i < k → length (capfloors_ s' !!! i) = nStrikes_ s;
  warmup_handles : ∀ i j, j < nStrikes_ s →
      mget (capfloors_ s') i j = mget (capfloors_ s) i j;
  warmup_periods : ∀ i, i < k →
      optionletDates_ s' !!! i = fixingDate_of s i ∧
      optionletAccrualPeriods_ s' !!! i = 0.5%float ∧
      optionletTimes_ s' !!! i = time_of s i ∧
      atmOptionletRate s' !!! i = atm_of s i;
}.

(** The members after the assignments of lines 109-119 for the cell
    [(i, j)]: the market volatility, the instrument, its price and the
    price of the optionlet. *)
Definition priced_cell (j i : nat) (previousCapFloorPrice : Real)
    (s : OptionletStripper) : OptionletStripper :=
  set_optionletPrices_
    (mset i j (NPV (instrument_of s i j) - previousCapFloorPrice)%float)
    (set_capfloorPrices_ (mset i j (NPV (instrument_of s i j)))
       (set_capfloors_ (mset i j (Some (instrument_of s i j)))
          (set_capfloorVols_ (mset i j (marketVol_of s i j)) s))).

(** The members after the assignments of lines 125 and 142 for the cell
    [(i, j)], when the solver has returned [stdDev]. *)
Definition inverted_cell (j i : nat) (stdDev : Real) (s : OptionletStripper)
    : OptionletStripper :=
  set_optionletVols_
    (mset i j (stdDev / PrimFloat.sqrt (optionletTimes_ s !!! i))%float)
    (set_optionletStDevs_ (mset i j stdDev) s).

(** [n] periods [start * tenor], [(start + 1) * tenor], ... *)
Definition ladder (indexTenor : Period) (start n : nat) : list Period :=
  (λ k, period_times k indexTenor) <$> seq start n.

(** [sum(optionletPrices[0..i][j])]: the cells of the column [j] down to the
    row [i], added from 0 in the order of the rows. *)
Definition column_sum (m : Matrix) (i j : nat) : Real :=
  foldl (λ acc k, acc + mget m k j)%float 0.0%float (seq 0 (S i)).

(** The pass has not thrown. *)
Definition completes {A} (r : Run A) : bool :=
  match r with
  | Ok _ _ => true
  | Raise _ _ => false
  end.

(** The members after the pass, whichever way it ends. *)
Definition members_after {A} (r : Run A) : OptionletStripper :=
  match r with
  | Ok _ s' => s'
  | Raise _ s' => s'
  end.

End Stripper.

Arguments Ok {Period A} a s.
Arguments Raise {Period A} d s.

(** ** A market in whole months, for the scenarios *)

Module Example.
Import MonthPeriod.

Definition of_Z (z : Z) : Real := PrimFloat.of_uint63 (Uint63.of_Z z).

(** Actual/360 on serial numbers. *)
Definition actual360 : DayCounter :=
  {| yearFraction := λ d1 d2, (of_Z (d2 - d1) / 360)%float |}.

(** Quotes at 1Y and 2Y for the strikes 3% and 5%. *)
Definition surface (vol : t → Rate → Volatility) : CapFloorTermVolSurface :=
  {| optionTenors := [Y 1; Y 2];
     strikes := [0.03; 0.05]%float;
     referenceDate := 0%Z;
     dayCounter := actual360;
     volatility := λ length strike _, vol length strike |}.

Definition flat_surface : CapFloorTermVolSurface := surface (λ _ _, 0.25%float).

(** Volatilities that fall so fast that the 18M cap is cheaper than the 12M
    one. *)
Definition falling_surface : CapFloorTermVolSurface :=
  surface (λ length _, if (months length <=? 12)%Z then 0.5%float else 0.125%float).

Definition index (n : Z) : IborIndex :=
  {| tenor := M n; forecastFixing := λ _, 0.04%float |}.

(** A toy market: months of 30 days, a price proportional to the volatility
    and to the length, and a solver that refuses a price that is not
    positive. *)
#[export] Instance pricing : Pricing :=
  {| lastFixingDate := λ c,
       (30 * (months (capFloorTenor c) - months (tenor (capFloorIndex c))))%Z;
     NPV := λ c, (engineVolatility (pricingEngine c)
                  * of_Z (months (capFloorTenor c)) / 1024)%float;
     discount := λ _ d, (1 / (1 + 0.0001 * of_Z d))%float;
     blackFormulaImpliedStdDev := λ _ _ _ price annuity guess,
       if (0 <? price)%float then inr (price / annuity + guess)%float
       else inl "root not bracketed"%string |}.

(** As [pricing], with the cap prices 0.001 at 12M and 0.01 further out. *)
Definition rounding_pricing : Pricing :=
  {| lastFixingDate := lastFixingDate;
     NPV := λ c, if (months (capFloorTenor c) <=? 12)%Z then 0.001%float
                 else 0.01%float;
     discount := discount;
     blackFormulaImpliedStdDev := λ _ _ _ _ _ guess, inr guess |}.

(** [OptionletStripper(surface, index 6, switchStrikes)] as the constructor
    leaves it when it keeps the switch strikes [switchStrikes']: three
    periods, two strikes. *)
Definition fresh (surface : CapFloorTermVolSurface) (switchStrikes' : list Rate)
    : OptionletStripper :=
  {| surface_ := surface;
     index_ := index 6;
     nStrikes_ := 2;
     switchStrikes_ := switchStrikes';
     optionletTenors_ := [M 6; M 12; M 18];
     capfloorLengths_ := [M 12; M 18; M 24];
     nOptionletTenors_ := 3;
     capfloorPrices_ := Matrix_uninit 3 2;
     optionletPrices_ := Matrix_uninit 3 2;
     capfloorVols_ := Matrix_uninit 3 2;
     optionletVols_ := Matrix_uninit 3 2;
     optionletStDevs_ := Matrix_new 3 2 firstGuess;
     atmOptionletRate := [0; 0; 0]%float;
     optionletDates_ := [0; 0; 0]%Z;
     optionletTimes_ := [0; 0; 0]%float;
     optionletAccrualPeriods_ := [0; 0; 0]%float;
     capfloors_ := [[]; []; []] |}.

(** On the flat surface, and what the pass leaves. *)
Definition flat : OptionletStripper := fresh flat_surface [0.04; 0.04; 0.04]%float.
Definition flat_stripped : OptionletStripper :=
  members_after (performCalculations flat).

(** What a second pass leaves on the flat surface. *)
Definition flat_restripped : OptionletStripper :=
  members_after (performCalculations flat_stripped).

(** On the falling surface, and what the pass leaves. *)
Definition falling : OptionletStripper :=
  fresh falling_surface [0.04; 0.04; 0.04]%float.
Definition falling_stripped : OptionletStripper :=
  members_after (performCalculations falling).

(** On the flat surface with the prices 0.001 and 0.01, and what the pass
    leaves. *)
Definition rounded_stripped : OptionletStripper :=
  members_after (performCalculations (H0 := rounding_pricing) flat).

End Example.

(** * Properties *)

(** ** Vectors and matrices *)

Section MatrixFacts.
Context {A : Type} `{Inhabited A}.
Implicit Types (m : list (list A)) (v : A).

Lemma back_snoc (l : list A) (x : A) : back (l ++ [x]) = x.
Proof. unfold back. by rewrite last_snoc. Qed.

Lemma dims_row rows columns m i :
  dims rows columns m → i < rows → length (m !!! i) = columns.
Proof.
  intros [Hlen Hrows] Hi.
  apply (Forall_lookup_total_1 _ _ i) in Hrows; [done | lia].
Qed.

Lemma dims_mset rows columns m i j v :
  dims rows columns m → dims rows columns (mset i j v m).
Proof.
  intros [Hlen Hrows]. split.
  - unfold mset. by rewrite length_alter.
  - unfold mset. apply Forall_alter; [done |].
    intros row _ Hrow. by rewrite length_insert.
Qed.

Lemma rows_mset columns m i j v :
  Forall (λ row, length row = columns) m →
  Forall (λ row, length row = columns) (mset i j v m).
Proof.
  intros Hrows. unfold mset. apply Forall_alter; [done |].
  intros row _ Hrow. by rewrite length_insert.
Qed.

Lemma length_mset m i j v : length (mset i j v m) = length m.
Proof. unfold mset. by rewrite length_alter. Qed.

Lemma mget_mset_eq m i j v :
  i < length m → j < length (m !!! i) → mget (mset i j v m) i j = v.
Proof.
  intros Hi Hj. unfold mget, mset.
  rewrite list_lookup_total_alter_eq by done.
  by rewrite list_lookup_total_insert_eq.
Qed.

Lemma mget_mset_ne m i j i' j' v :
  (i, j) ≠ (i', j') → mget (mset i j v m) i' j' = mget m i' j'.
Proof.
  intros Hne. unfold mget, mset.
  destruct (decide (i = i')) as [-> | Hi].
  - destruct (decide (i' < length m)) as [Hlt | Hge].
    + rewrite list_lookup_total_alter_eq by done.
      rewrite list_lookup_total_insert_ne; [done | congruence].
    + rewrite !list_lookup_total_alt.
      rewrite list_lookup_alter_eq.
      rewrite (lookup_ge_None_2 m i') by lia. done.
  - by rewrite list_lookup_total_alter_ne.
Qed.

Lemma mget_Matrix_cells rows columns v i j :
  i < rows → j < columns →
  mget (replicate rows (replicate columns v)) i j = v.
Proof.
  intros Hi Hj. unfold mget.
  rewrite lookup_total_replicate_2 by done.
  by rewrite lookup_total_replicate_2.
Qed.

Lemma dims_replicate rows columns v :
  dims rows columns (replicate rows (replicate columns v)).
Proof.
  split; [by rewrite length_replicate |].
  apply Forall_replicate. by rewrite length_replicate.
Qed.

End MatrixFacts.

(** ** The tenor ladder of the constructor *)

Section GridFacts.
Context {Period : Type} `{PeriodOps Period}.
Implicit Types (indexTenor maxCapFloorTenor : Period).

Lemma period_times_step indexTenor n :
  period_add (period_times (S n) indexTenor) indexTenor
  = period_times (S (S n)) indexTenor.
Proof. reflexivity. Qed.

Lemma length_ladder indexTenor start n : length (ladder indexTenor start n) = n.
Proof. unfold ladder. by rewrite length_fmap, length_seq. Qed.

Lemma ladder_snoc indexTenor start n :
  ladder indexTenor start (S n)
  = ladder indexTenor start n ++ [period_times (start + n) indexTenor].
Proof. unfold ladder. by rewrite seq_S, fmap_app. Qed.

Lemma ladder_lookup indexTenor start n i :
  i < n → ladder indexTenor start n !! i = Some (period_times (start + i) indexTenor).
Proof.
  intros Hi. unfold ladder.
  by rewrite list_lookup_fmap, lookup_seq_lt.
Qed.

Lemma ladder_lookup_total indexTenor start n i :
  i < n → ladder indexTenor start n !!! i = period_times (start + i) indexTenor.
Proof. intros Hi. apply list_lookup_total_correct. by apply ladder_lookup. Qed.

Lemma back_ladder indexTenor start n :
  back (ladder indexTenor start (S n)) = period_times (start + n) indexTenor.
Proof. rewrite ladder_snoc. apply back_snoc. Qed.

(** One more turn of the loop extends both ladders by one period. *)
Lemma tenor_loop_unfold fuel indexTenor maxCapFloorTenor n :
  tenor_loop (S fuel) indexTenor maxCapFloorTenor
    (ladder indexTenor 1 (S n)) (ladder indexTenor 2 (S n))
  = if period_le (period_times (3 + n) indexTenor) maxCapFloorTenor
    then tenor_loop fuel indexTenor maxCapFloorTenor
           (ladder indexTenor 1 (S (S n))) (ladder indexTenor 2 (S (S n)))
    else Some (ladder indexTenor 1 (S n), ladder indexTenor 2 (S n)).
Proof.
  cbn [tenor_loop]. rewrite !back_ladder.
  rewrite (ladder_snoc indexTenor 1 (S n)), (ladder_snoc indexTenor 2 (S n)).
  rewrite back_snoc. reflexivity.
Qed.

(** What the loop returns, when it returns: the ladders up to the last
    length that fits under the maximum. *)
Lemma tenor_loop_spec fuel indexTenor maxCapFloorTenor n ts ls :
  tenor_loop fuel indexTenor maxCapFloorTenor
    (ladder indexTenor 1 (S n)) (ladder indexTenor 2 (S n)) = Some (ts, ls) →
  ∃ m, n ≤ m ∧ ts = ladder indexTenor 1 (S m) ∧ ls = ladder indexTenor 2 (S m) ∧
       (∀ k, n < k → k ≤ m →
          period_le (period_times (2 + k) indexTenor) maxCapFloorTenor = true) ∧
       period_le (period_times (3 + m) indexTenor) maxCapFloorTenor = false.
Proof.
  revert n. induction fuel as [| fuel IH]; intros n Hrun; [done |].
  rewrite tenor_loop_unfold in Hrun.
  destruct (period_le (period_times (3 + n) indexTenor) maxCapFloorTenor) eqn:Hle.
  - destruct (IH _ Hrun) as (m & Hnm & Hts & Hls & Hfit & Hstop).
    exists m. split_and!; [lia | done | done | | done].
    intros k Hk1 Hk2. destruct (decide (k = S n)) as [-> | Hne]; [done |].
    apply Hfit; lia.
  - injection Hrun as <- <-. exists n. split_and!; [lia | done | done | | done].
    intros k Hk1 Hk2. lia.
Qed.

(** More fuel does not change the result. *)
Lemma tenor_loop_fuel fuel extra indexTenor maxCapFloorTenor ts ls grid :
  tenor_loop fuel indexTenor maxCapFloorTenor ts ls = Some grid →
  tenor_loop (fuel + extra) indexTenor maxCapFloorTenor ts ls = Some grid.
Proof.
  revert ts ls. induction fuel as [| fuel IH]; intros ts ls Hrun; [done |].
  cbn [tenor_loop Nat.add] in *.
  destruct (period_le _ _); [by apply IH | done].
Qed.

Lemma tenor_grid_unfold fuel indexTenor maxCapFloorTenor :
  tenor_grid fuel indexTenor maxCapFloorTenor
  = if period_le (period_add indexTenor indexTenor) maxCapFloorTenor
    then match tenor_loop fuel indexTenor maxCapFloorTenor
                 (ladder indexTenor 1 1) (ladder indexTenor 2 1) with
         | None => OutOfFuel
         | Some grid => Returns grid
         end
    else Throws "too short capfloor term vol surface".
Proof.
  unfold tenor_grid. change (back [indexTenor]) with indexTenor.
  change (back [period_add indexTenor indexTenor])
    with (period_add indexTenor indexTenor).
  by destruct (period_le _ _).
Qed.

Lemma tenor_grid_spec fuel indexTenor maxCapFloorTenor ts ls :
  tenor_grid fuel indexTenor maxCapFloorTenor = Returns (ts, ls) →
  ∃ m, ts = ladder indexTenor 1 (S m) ∧ ls = ladder indexTenor 2 (S m) ∧
       (∀ k, k ≤ m →
          period_le (period_times (2 + k) indexTenor) maxCapFloorTenor = true) ∧
       period_le (period_times (3 + m) indexTenor) maxCapFloorTenor = false.
Proof.
  rewrite tenor_grid_unfold.
  destruct (period_le (period_add indexTenor indexTenor) maxCapFloorTenor) eqn:Hfirst;
    [| done].
  destruct (tenor_loop _ _ _ _ _) as [[ts' ls'] |] eqn:Hrun; [| done].
  intros [= -> ->].
  destruct (tenor_loop_spec _ _ _ _ _ _ Hrun) as (m & _ & Hts & Hls & Hfit & Hstop).
  exists m. split_and!; [done | done | | done].
  intros k Hk. destruct k as [| k]; [done |]. apply Hfit; lia.
Qed.

End GridFacts.

(** ** The constructor *)

Section ConstructorFacts.
Context {Period : Type} `{PeriodOps Period}.
Implicit Types (surface : @CapFloorTermVolSurface Period).
Implicit Types (index : @IborIndex Period) (s : @OptionletStripper Period).
Implicit Types (switchStrikes : list Rate).

Lemma vector_eq_nil switchStrikes :
  vector_eq switchStrikes [] = true ↔ switchStrikes = [].
Proof.
  unfold vector_eq. destruct switchStrikes as [| x l]; cbn; [done |].
  split; done.
Qed.

Lemma normalize_single n x : normalize_switchStrikes n [x] = replicate n x.
Proof. reflexivity. Qed.

Lemma normalize_empty n : normalize_switchStrikes n [] = replicate n 0.04%float.
Proof. reflexivity. Qed.

Lemma normalize_other n switchStrikes :
  2 ≤ length switchStrikes → normalize_switchStrikes n switchStrikes = switchStrikes.
Proof.
  intros Hlen. unfold normalize_switchStrikes.
  destruct switchStrikes as [| x [| y l]]; cbn in Hlen; [lia | lia |].
  reflexivity.
Qed.

Lemma tenor_grid_lengths fuel indexTenor maxCapFloorTenor ts ls :
  tenor_grid fuel indexTenor maxCapFloorTenor = Returns (ts, ls) →
  length ls = length ts ∧ 0 < length ts.
Proof.
  intros Hgrid. apply tenor_grid_spec in Hgrid as (m & -> & -> & _).
  rewrite !length_ladder. lia.
Qed.

(** The three ways the constructor ends once the ladder is built. *)
Lemma new_unfold fuel surface index switchStrikes maxCapFloorTenor ts ls :
  last (optionTenors surface) = Some maxCapFloorTenor →
  tenor_grid fuel (tenor index) maxCapFloorTenor = Returns (ts, ls) →
  (length ts ≠ length (normalize_switchStrikes (length ts) switchStrikes) ∧
   OptionletStripper_new fuel surface index switchStrikes
   = Throws "nOptionletTenors_!=switchStrikes_.size()") ∨
  (length ts = length (normalize_switchStrikes (length ts) switchStrikes) ∧
   ∃ s, OptionletStripper_new fuel surface index switchStrikes = Returns s ∧
        switchStrikes_ s = normalize_switchStrikes (length ts) switchStrikes).
Proof.
  intros Hlast Hgrid. unfold OptionletStripper_new. rewrite Hlast, Hgrid.
  destruct (Nat.eqb_spec (length ts)
              (length (normalize_switchStrikes (length ts) switchStrikes)))
    as [Heq | Hne].
  - right. split; [done |]. eexists. split; reflexivity.
  - left. done.
Qed.

(** What a built stripper holds. *)
Lemma new_returns fuel surface index switchStrikes s :
  OptionletStripper_new fuel surface index switchStrikes = Returns s →
  ∃ maxCapFloorTenor ts ls,
    last (optionTenors surface) = Some maxCapFloorTenor ∧
    tenor_grid fuel (tenor index) maxCapFloorTenor = Returns (ts, ls) ∧
    surface_ s = surface ∧ index_ s = index ∧
    nStrikes_ s = length (strikes surface) ∧
    nOptionletTenors_ s = length ts ∧
    optionletTenors_ s = ts ∧ capfloorLengths_ s = ls ∧
    switchStrikes_ s = normalize_switchStrikes (length ts) switchStrikes ∧
    optionletStDevs_ s
    = Matrix_new (length ts) (length (strikes surface)) firstGuess ∧
    sized s.
Proof.
  unfold OptionletStripper_new.
  destruct (last (optionTenors surface)) as [maxCapFloorTenor |] eqn:Hlast; [| done].
  destruct (tenor_grid fuel (tenor index) maxCapFloorTenor)
    as [[ts ls] | | |] eqn:Hgrid; try done.
  destruct (Nat.eqb_spec (length ts)
              (length (normalize_switchStrikes (length ts) switchStrikes)))
    as [Heq | Hne]; [| done].
  intros [= <-]. exists maxCapFloorTenor, ts, ls.
  destruct (tenor_grid_lengths _ _ _ _ _ Hgrid) as [Hls _].
  split_and!; try reflexivity; try done.
  constructor; cbn; try done;
    try apply dims_replicate; by rewrite ?length_replicate.
Qed.

Lemma new_sized fuel surface index switchStrikes s :
  OptionletStripper_new fuel surface index switchStrikes = Returns s → sized s.
Proof.
  intros Hnew. apply new_returns in Hnew as (? & ? & ? & Hnew).
  by destruct Hnew as (_ & _ & _ & _ & _ & _ & _ & _ & _ & _ & ?).
Qed.

End ConstructorFacts.

(** ** The ladder of a built stripper *)

Section LadderFacts.
Context {Period : Type} `{PeriodOps Period}.
Implicit Types (surface : @CapFloorTermVolSurface Period).
Implicit Types (index : @IborIndex Period) (s : @OptionletStripper Period).
Implicit Types (switchStrikes : list Rate).

(** C1, as amended: for every built stripper and every period index [i]
    (from 0), the optionlet tenor is [(i+1) * indexTenor], and the cumulative
    cap/floor length is that tenor plus the index tenor, which is
    [(i+2) * indexTenor] (the multiples being the sums [p + p + ...] the
    constructor forms). *)
Theorem capfloorLengths_multiples fuel surface index switchStrikes s i :
  OptionletStripper_new fuel surface index switchStrikes = Returns s →
  i < nOptionletTenors_ s →
  optionletTenors_ s !! i = Some (period_times (i + 1) (tenor index)) ∧
  capfloorLengths_ s !! i = Some (period_times (i + 2) (tenor index)) ∧
  capfloorLengths_ s !! i
  = (λ p, period_add p (tenor index)) <$> optionletTenors_ s !! i.
Proof.
  intros Hnew Hi.
  apply new_returns in Hnew
    as (maxCapFloorTenor & ts & ls & _ & Hgrid & _ & _ & _ & HN & Hts & Hls & _).
  apply tenor_grid_spec in Hgrid as (m & -> & -> & _).
  rewrite HN, length_ladder in Hi. rewrite Hts, Hls.
  rewrite !ladder_lookup by done.
  replace (1 + i) with (S i) by lia. replace (2 + i) with (S (S i)) by lia.
  replace (i + 1) with (S i) by lia. replace (i + 2) with (S (S i)) by lia.
  split_and!; [done | done |].
  cbn [fmap option_fmap option_map]. by rewrite period_times_step.
Qed.

(** C7: the switch strikes kept by the constructor, once the ladder of [N]
    periods is built: one value is repeated [N] times, none gives [N] times
    0.04, and any other sequence is kept as it is and the construction
    succeeds exactly when it has [N] values, throwing otherwise; a built
    stripper always has [N] switch strikes. *)
Theorem switchStrikes_normalization fuel surface index switchStrikes
    maxCapFloorTenor ts ls :
  last (optionTenors surface) = Some maxCapFloorTenor →
  tenor_grid fuel (tenor index) maxCapFloorTenor = Returns (ts, ls) →
  (∀ x, switchStrikes = [x] →
     ∃ s, OptionletStripper_new fuel surface index switchStrikes = Returns s ∧
          switchStrikes_ s = replicate (length ts) x) ∧
  (switchStrikes = [] →
     ∃ s, OptionletStripper_new fuel surface index switchStrikes = Returns s ∧
          switchStrikes_ s = replicate (length ts) 0.04%float) ∧
  (2 ≤ length switchStrikes →
     ((∃ s, OptionletStripper_new fuel surface index switchStrikes = Returns s)
      ↔ length switchStrikes = length ts) ∧
     (length switchStrikes ≠ length ts →
      OptionletStripper_new fuel surface index switchStrikes
      = Throws "nOptionletTenors_!=switchStrikes_.size()") ∧
     (∀ s, OptionletStripper_new fuel surface index switchStrikes = Returns s →
           switchStrikes_ s = switchStrikes)) ∧
  (∀ s, OptionletStripper_new fuel surface index switchStrikes = Returns s →
        nOptionletTenors_ s = length ts ∧
        length (switchStrikes_ s) = nOptionletTenors_ s).
Proof.
  intros Hlast Hgrid.
  pose proof (new_unfold fuel surface index switchStrikes _ _ _ Hlast Hgrid) as Hnew.
  split_and!.
  - intros x ->. rewrite normalize_single, length_replicate in Hnew.
    destruct Hnew as [[Hne _] | [_ Hs]]; done.
  - intros ->. rewrite normalize_empty, length_replicate in Hnew.
    destruct Hnew as [[Hne _] | [_ Hs]]; done.
  - intros Hlen. rewrite (normalize_other _ _ Hlen) in Hnew.
    destruct Hnew as [[Hne Hthrow] | [Heq (s & Hs & Hsw)]]; split_and!.
    + split; [intros [s Hs]; congruence | done].
    + done.
    + intros s Hs. congruence.
    + split; [done | by exists s].
    + done.
    + intros s' Hs'. congruence.
  - intros s Hs. apply new_returns in Hs
      as (maxCapFloorTenor' & ts' & ls' & Hlast' & Hgrid' & _ & _ & _ & HN & _ & _ & _
          & _ & Hsized).
    assert (ts' = ts) as -> by congruence.
    split; [done |]. by destruct Hsized.
Qed.

(** Supposing the periods have a common scale: a number of months (or of
    days) that the sum adds and the order compares. *)
Section Scale.
Variable months : Period → Z.
Hypothesis months_add : ∀ a b, months (period_add a b) = (months a + months b)%Z.
Hypothesis months_le : ∀ a b, period_le a b = (months a <=? months b)%Z.

Lemma months_times n p :
  months (period_times (S n) p) = (Z.of_nat (S n) * months p)%Z.
Proof.
  induction n as [| n IH]; [cbn [period_times]; lia |].
  rewrite <- period_times_step, months_add, IH. lia.
Qed.

(** A ladder that stops has a positive step. *)
Lemma ladder_positive indexTenor maxCapFloorTenor m :
  period_le (period_times (2 + m) indexTenor) maxCapFloorTenor = true →
  period_le (period_times (3 + m) indexTenor) maxCapFloorTenor = false →
  (0 < months indexTenor)%Z.
Proof.
  rewrite !months_le. cbn [Nat.add]. rewrite !months_times.
  intros Hfit%Z.leb_le Hstop%Z.leb_gt. lia.
Qed.

(** Whenever the index tenor is positive and twice the tenor fits, the loop
    stops: with enough fuel the ladder is returned. *)
Lemma tenor_loop_stops indexTenor maxCapFloorTenor fuel n :
  (0 < months indexTenor)%Z →
  (months maxCapFloorTenor - Z.of_nat (2 + n) * months indexTenor
   < Z.of_nat fuel * months indexTenor)%Z →
  is_Some (tenor_loop (S fuel) indexTenor maxCapFloorTenor
             (ladder indexTenor 1 (S n)) (ladder indexTenor 2 (S n))).
Proof.
  intros Hpos. revert n. induction fuel as [| fuel IH]; intros n Hfuel.
  - rewrite tenor_loop_unfold, months_le. cbn [Nat.add]. rewrite months_times.
    destruct (Z.leb_spec (Z.of_nat (S (S (S n))) * months indexTenor)
                (months maxCapFloorTenor)); [lia | done].
  - rewrite tenor_loop_unfold.
    destruct (period_le _ _) eqn:Hle; [| done].
    apply IH. rewrite months_le in Hle. cbn [Nat.add] in Hle.
    rewrite months_times in Hle. apply Z.leb_le in Hle. lia.
Qed.

Lemma tenor_grid_stops indexTenor maxCapFloorTenor :
  (0 < months indexTenor)%Z →
  period_le (period_add indexTenor indexTenor) maxCapFloorTenor = true →
  ∃ fuel grid, ∀ extra,
    tenor_grid (fuel + extra) indexTenor maxCapFloorTenor = Returns grid.
Proof.
  intros Hpos Hfirst.
  set (fuel := Z.to_nat (months maxCapFloorTenor / months indexTenor)).
  destruct (tenor_loop_stops indexTenor maxCapFloorTenor fuel 0 Hpos) as [grid Hrun].
  { pose proof (Z.mul_div_le (months maxCapFloorTenor) (months indexTenor) Hpos).
    pose proof (Z.mod_pos_bound (months maxCapFloorTenor) (months indexTenor) Hpos).
    pose proof (Z.div_mod (months maxCapFloorTenor) (months indexTenor)).
    rewrite months_le, months_add in Hfirst. apply Z.leb_le in Hfirst.
    assert (0 <= months maxCapFloorTenor / months indexTenor)%Z
      by (apply Z.div_pos; lia).
    subst fuel. rewrite Z2Nat.id by done. lia. }
  exists (S fuel), grid. intros extra. rewrite tenor_grid_unfold, Hfirst.
  by rewrite (tenor_loop_fuel _ extra _ _ _ _ _ Hrun).
Qed.

(** C2: in every built stripper, each cumulative length is the one before
    plus the index tenor, hence strictly longer, and none is longer than the
    last maturity quoted on the surface; and the construction throws when
    the first length, [indexTenor + indexTenor], is longer than that
    maturity. *)
Theorem capfloorLengths_ladder fuel surface index switchStrikes maxCapFloorTenor :
  last (optionTenors surface) = Some maxCapFloorTenor →
  (∀ s, OptionletStripper_new fuel surface index switchStrikes = Returns s →
     length (optionletTenors_ s) = nOptionletTenors_ s ∧
     length (capfloorLengths_ s) = nOptionletTenors_ s ∧
     (∀ i, 1 ≤ i → i < nOptionletTenors_ s →
        capfloorLengths_ s !!! i
        = period_add (capfloorLengths_ s !!! (i - 1)) (tenor index) ∧
        period_lt (capfloorLengths_ s !!! (i - 1)) (capfloorLengths_ s !!! i) = true) ∧
     (∀ i, i < nOptionletTenors_ s →
        period_le (capfloorLengths_ s !!! i) maxCapFloorTenor = true)) ∧
  (period_le (period_add (tenor index) (tenor index)) maxCapFloorTenor = false →
   OptionletStripper_new fuel surface index switchStrikes
   = Throws "too short capfloor term vol surface").
Proof.
  intros Hlast. split.
  - intros s Hnew. apply new_returns in Hnew
      as (maxCapFloorTenor' & ts & ls & Hlast' & Hgrid & _ & _ & _ & HN & Hts & Hls & _).
    assert (maxCapFloorTenor' = maxCapFloorTenor) as -> by congruence.
    apply tenor_grid_spec in Hgrid as (m & -> & -> & Hfit & Hstop).
    rewrite Hts, Hls, HN, !length_ladder. split_and!; [done | done | |].
    + intros i Hi1 Hi2. destruct i as [| i]; [lia |].
      replace (S i - 1) with i by lia.
      rewrite !ladder_lookup_total by lia. cbn [Nat.add]. split; [done |].
      unfold period_lt. rewrite months_le, !months_times.
      pose proof (ladder_positive _ _ _ (Hfit m (le_n _)) Hstop).
      apply negb_true_iff, Z.leb_gt. lia.
    + intros i Hi. rewrite ladder_lookup_total by done. apply Hfit. lia.
  - intros Hshort. unfold OptionletStripper_new.
    by rewrite Hlast, tenor_grid_unfold, Hshort.
Qed.

End Scale.
End LadderFacts.

(** ** The recomputation pass *)

Section PassFacts.
Context {Period : Type} `{PeriodOps Period} `{!@Pricing Period}.
Implicit Types (s : @OptionletStripper Period) (d : Diagnostic).

(** Unfolding the assignments and the reads of the members. *)
Ltac members :=
  cbn [surface_ index_ nStrikes_ switchStrikes_ optionletTenors_ capfloorLengths_
       nOptionletTenors_ capfloorPrices_ optionletPrices_ capfloorVols_
       optionletVols_ optionletStDevs_ atmOptionletRate optionletDates_
       optionletTimes_ optionletAccrualPeriods_ capfloors_
       set_capfloorPrices_ set_optionletPrices_ set_capfloorVols_
       set_optionletVols_ set_optionletStDevs_ set_atmOptionletRate
       set_optionletDates_ set_optionletTimes_ set_optionletAccrualPeriods_
       set_capfloors_ priced_cell inverted_cell] in *.

(** The rule of the [for] loops: an invariant [Inv i a s] of the index, the
    local variable and the members, and what holds when the body throws. *)
Lemma for_each_rule {A} (body : nat → A → Calc A)
    (Inv : nat → A → OptionletStripper → Prop)
    (Thrown : Diagnostic → OptionletStripper → Prop) n start a s :
  Inv start a s →
  (∀ i a s, start ≤ i → i < start + n → Inv i a s →
     match body i a s with
     | Ok a' s' => Inv (S i) a' s'
     | Raise d s' => Thrown d s'
     end) →
  match for_each (seq start n) body a s with
  | Ok a' s' => Inv (start + n) a' s'
  | Raise d s' => Thrown d s'
  end.
Proof.
  revert start a s. induction n as [| n IH]; intros start a s Hinv Hbody.
  - cbn. by rewrite Nat.add_0_r.
  - cbn [seq for_each]. unfold bind.
    pose proof (Hbody start a s (le_n _) ltac:(lia) Hinv) as Hstep.
    destruct (body start a s) as [a' s' | d s']; [| done].
    replace (start + S n) with (S start + n) by lia.
    apply IH; [done |]. intros i a0 s0 Hi1 Hi2. apply Hbody; lia.
Qed.

(** The body of the first loop, as one assignment. *)
Lemma period_body_eq i s :
  i < length (optionletDates_ s) →
  period_body i () s
  = Ok () (set_capfloors_ (alter (resize (nStrikes_ s) None) i)
             (set_atmOptionletRate <[i := atm_of s i]>
                (set_optionletTimes_ <[i := time_of s i]>
                   (set_optionletAccrualPeriods_ <[i := 0.5%float]>
                      (set_optionletDates_ <[i := fixingDate_of s i]> s))))).
Proof.
  intros Hi. unfold period_body, bind, this, assign. members.
  rewrite !list_lookup_total_insert_eq by done. reflexivity.
Qed.

Lemma same_grid_refl s : same_grid s s.
Proof. by constructor. Qed.

Lemma same_grid_trans s s' s'' : same_grid s s' → same_grid s' s'' → same_grid s s''.
Proof. intros [] []. constructor; congruence. Qed.

(** The closed forms only read the members the pass does not assign. *)
Lemma same_grid_forms s s' :
  same_grid s s' →
  (∀ i, fixingDate_of s' i = fixingDate_of s i) ∧
  (∀ i, time_of s' i = time_of s i) ∧
  (∀ i, atm_of s' i = atm_of s i) ∧
  (∀ j, strike_of s' j = strike_of s j) ∧
  (∀ i j, side_of s' i j = side_of s i j) ∧
  (∀ i j, marketVol_of s' i j = marketVol_of s i j) ∧
  (∀ i j, instrument_of s' i j = instrument_of s i j).
Proof.
  intros [Hsurface Hindex _ Hswitch _ Hlengths _].
  unfold time_of, atm_of, instrument_of, marketVol_of, side_of, fixingDate_of,
    strike_of.
  rewrite Hsurface, Hindex, Hswitch, Hlengths. done.
Qed.

Lemma mget_mset_same {A} `{Inhabited A} rows columns (m : list (list A)) i j v :
  dims rows columns m → i < rows → j < columns → mget (mset i j v m) i j = v.
Proof.
  intros Hdims Hi Hj. apply mget_mset_eq.
  - destruct Hdims as [-> _]. done.
  - by rewrite (dims_row rows columns).
Qed.

(** The body of the inner loop, executed on members of the right sizes: the
    four assignments of the prices, then the call of the solver on the
    cell's own standard deviation, and either the two last assignments or
    the exception. *)
Lemma cell_body_eq j i previousCapFloorPrice s :
  sized s → Forall (λ row, length row = nStrikes_ s) (capfloors_ s) →
  i < nOptionletTenors_ s → j < nStrikes_ s →
  cell_body j i previousCapFloorPrice s
  = match blackFormulaImpliedStdDev (optionletType_of (side_of s i j))
            (strike_of s j) (atmOptionletRate s !!! i)
            (NPV (instrument_of s i j) - previousCapFloorPrice)%float
            (optionletAccrualPeriods_ s !!! i
             * discount (instrument_of s i j) (optionletDates_ s !!! i))%float
            (mget (optionletStDevs_ s) i j) with
    | inr stdDev =>
        Ok (NPV (instrument_of s i j))
           (inverted_cell j i stdDev (priced_cell j i previousCapFloorPrice s))
    | inl what =>
        Raise {| diag_date := optionletDates_ s !!! i;
                 diag_type := optionletType_of (side_of s i j);
                 diag_strike := strike_of s j;
                 diag_atm := atmOptionletRate s !!! i;
                 diag_price := (NPV (instrument_of s i j) - previousCapFloorPrice)%float;
                 diag_annuity :=
                   (optionletAccrualPeriods_ s !!! i
                    * discount (instrument_of s i j) (optionletDates_ s !!! i))%float;
                 diag_what := what |}
              (priced_cell j i previousCapFloorPrice s)
    end.
Proof.
  intros Hsized Hrows Hi Hj.
  assert (dims (nOptionletTenors_ s) (nStrikes_ s) (capfloors_ s)) as Hhandles
    by (split; [by destruct Hsized | done]).
  destruct Hsized.
  unfold cell_body, bind, this, assign, ret, QL_FAIL. members.
  rewrite !(mget_mset_same (nOptionletTenors_ s) (nStrikes_ s)) by done.
  unfold deref. cbn [from_option].
  fold (strike_of s j). fold (side_of s i j). fold (marketVol_of s i j).
  fold (instrument_of s i j).
  destruct (blackFormulaImpliedStdDev _ _ _ _ _ _) as [what | stdDev]; members.
  - reflexivity.
  - rewrite !(mget_mset_same (nOptionletTenors_ s) (nStrikes_ s)) by done.
    reflexivity.
Qed.

(** *** One cell and the others *)

Lemma untouched_refl s i j : untouched s s i j.
Proof. by repeat split. Qed.

Lemma untouched_trans s s' s'' i j :
  untouched s s' i j → untouched s' s'' i j → untouched s s'' i j.
Proof.
  intros (? & ? & ? & ? & ? & ?) (? & ? & ? & ? & ? & ?).
  repeat split; congruence.
Qed.

Lemma stripped_untouched s s' s'' i j :
  stripped s s' i j → untouched s' s'' i j → stripped s s'' i j.
Proof.
  intros ((? & ? & ? & ?) & ? & ?) (? & ? & ? & ? & ? & ?).
  repeat split; congruence.
Qed.

Lemma priced_cell_other j0 i0 previousCapFloorPrice s i j :
  (i0, j0) ≠ (i, j) → untouched s (priced_cell j0 i0 previousCapFloorPrice s) i j.
Proof.
  intros Hne. unfold untouched, kept. members.
  by rewrite !mget_mset_ne by done.
Qed.

Lemma inverted_cell_other j0 i0 stdDev s i j :
  (i0, j0) ≠ (i, j) → untouched s (inverted_cell j0 i0 stdDev s) i j.
Proof.
  intros Hne. unfold untouched, kept. members.
  by rewrite !mget_mset_ne by done.
Qed.

Lemma priced_cell_grid j i previousCapFloorPrice s :
  same_grid s (priced_cell j i previousCapFloorPrice s).
Proof. by constructor. Qed.

Lemma inverted_cell_grid j i stdDev s : same_grid s (inverted_cell j i stdDev s).
Proof. by constructor. Qed.

Lemma priced_cell_sized j i previousCapFloorPrice s :
  sized s → sized (priced_cell j i previousCapFloorPrice s).
Proof.
  intros []. constructor; members; try done;
    try (by apply dims_mset); by rewrite length_mset.
Qed.

Lemma inverted_cell_sized j i stdDev s : sized s → sized (inverted_cell j i stdDev s).
Proof. intros []. constructor; members; try done; by apply dims_mset. Qed.

(** The cell itself after the four assignments of the prices. *)
Lemma priced_cell_here j i previousCapFloorPrice s :
  sized s → Forall (λ row, length row = nStrikes_ s) (capfloors_ s) →
  i < nOptionletTenors_ s → j < nStrikes_ s →
  let s' := priced_cell j i previousCapFloorPrice s in
  mget (capfloorVols_ s') i j = marketVol_of s i j ∧
  mget (capfloors_ s') i j = Some (instrument_of s i j) ∧
  mget (capfloorPrices_ s') i j = NPV (instrument_of s i j) ∧
  mget (optionletPrices_ s') i j
  = (NPV (instrument_of s i j) - previousCapFloorPrice)%float ∧
  kept s s' i j.
Proof.
  intros Hsized Hrows Hi Hj.
  assert (dims (nOptionletTenors_ s) (nStrikes_ s) (capfloors_ s)) as Hhandles
    by (split; [by destruct Hsized | done]).
  destruct Hsized. unfold kept. members.
  by rewrite !(mget_mset_same (nOptionletTenors_ s) (nStrikes_ s)) by done.
Qed.

(** The cell itself after the two last assignments. *)
Lemma inverted_cell_here j i stdDev s :
  sized s → i < nOptionletTenors_ s → j < nStrikes_ s →
  let s' := inverted_cell j i stdDev s in
  mget (optionletStDevs_ s') i j = stdDev ∧
  mget (optionletVols_ s') i j
  = (stdDev / PrimFloat.sqrt (optionletTimes_ s !!! i))%float ∧
  capfloorVols_ s' = capfloorVols_ s ∧ capfloors_ s' = capfloors_ s ∧
  capfloorPrices_ s' = capfloorPrices_ s ∧ optionletPrices_ s' = optionletPrices_ s.
Proof.
  intros [] Hi Hj. members.
  by rewrite !(mget_mset_same (nOptionletTenors_ s) (nStrikes_ s)) by done.
Qed.

Lemma before_next i j i0 j0 :
  before i j (S i0) j0 ↔ before i j i0 j0 ∨ (i, j) = (i0, j0).
Proof.
  unfold before. split.
  - intros [? | [-> ?]]; [by left; left |].
    destruct (decide (i = i0)) as [-> | ?]; [by right |]. left. right. lia.
  - intros [[? | [-> ?]] | [= -> ->]]; [by left | right; lia | right; lia].
Qed.

Lemma before_irrefl i j : ¬ before i j i j.
Proof. unfold before. lia. Qed.

Lemma before_row rows i j j0 : i < rows → before i j rows j0 ↔ before i j 0 (S j0).
Proof. unfold before. lia. Qed.

(** *** The inner loop *)

(** One turn of the inner loop: from the cells before [(i0, j0)] to the
    cells before [(i0 + 1, j0)], or the exception of the cell [(i0, j0)]. *)
Lemma cell_body_step s s' i0 j0 :
  i0 < nOptionletTenors_ s → j0 < nStrikes_ s → progress s s' i0 j0 →
  match cell_body j0 i0 (previousPrice_of s i0 j0) s' with
  | Ok previous s'' =>
      previous = previousPrice_of s (S i0) j0 ∧ progress s s'' (S i0) j0
  | Raise d s'' => failed_at s d s'' i0 j0
  end.
Proof.
  intros Hi Hj [Hgrid Hsized Hrows Hperiods Hdone Htodo].
  pose proof Hgrid as [_ _ HM _ _ _ HN].
  destruct (same_grid_forms _ _ Hgrid)
    as (Hdate & Htime & Hatm & Hstrike & Hside & Hvol & Hinstr).
  destruct (Hperiods i0 Hi) as (Hdates & Haccrual & Htimes & Hatms).
  destruct (Htodo i0 j0 Hi Hj (before_irrefl _ _)) as (_ & _ & _ & _ & Hguess & _).
  rewrite cell_body_eq by (rewrite ?HM, ?HN; done).
  rewrite Hside, Hstrike, Hinstr, Hatms, Haccrual, Hdates, Hguess.
  change (blackFormulaImpliedStdDev _ _ _ _ _ _) with (solve s i0 j0).
  assert (Forall (λ row, length row = nStrikes_ s') (capfloors_ s')) as Hrows'
    by by rewrite HM.
  pose proof (priced_cell_here j0 i0 (previousPrice_of s i0 j0) s' Hsized Hrows')
    as Hhere. cbv zeta in Hhere. rewrite HM, HN, Hvol, Hinstr in Hhere.
  specialize (Hhere Hi Hj).
  set (s1 := priced_cell j0 i0 (previousPrice_of s i0 j0) s') in *.
  assert (sized s1) as Hsized1 by by apply priced_cell_sized.
  assert (same_grid s s1) as Hgrid1
    by (eapply same_grid_trans; [done | apply priced_cell_grid]).
  assert (priced s s1 i0 j0 ∧ kept s' s1 i0 j0) as [Hpriced Hkept].
  { destruct Hhere as (? & ? & ? & ? & ?). unfold priced. done. }
  assert (∀ i j, (i0, j0) ≠ (i, j) → untouched s' s1 i j) as Hother1
    by (intros; by apply priced_cell_other).
  destruct (solve s i0 j0) as [what | stdDev] eqn:Hsolve.
  - (* the solver throws *)
    constructor; try done.
    + by exists what.
    + split; [done |]. destruct Hkept as [Hsd Hv]. split.
      * rewrite Hsd. done.
      * rewrite Hv. by destruct (Htodo i0 j0 Hi Hj (before_irrefl _ _))
          as (_ & _ & _ & _ & _ & ?).
    + intros i j Hi' Hj' Hbefore. eapply stripped_untouched; [by apply Hdone |].
      apply Hother1. intros [= -> ->]. by apply (before_irrefl i j).
    + intros i j Hi' Hj' Hnot Hne. eapply untouched_trans; [by apply Htodo |].
      apply Hother1. congruence.
  - (* the solver returns *)
    split; [reflexivity |].
    set (s2 := inverted_cell j0 i0 stdDev s1).
    pose proof (inverted_cell_here j0 i0 stdDev s1 Hsized1) as Hinv.
    cbv zeta in Hinv.
    rewrite (same_nOptionletTenors _ _ Hgrid1), (same_nStrikes _ _ Hgrid1) in Hinv.
    destruct (Hinv Hi Hj) as (Hsd & Hv & HcV & Hcf & HcP & HoP). clear Hinv.
    fold s2 in Hsd, Hv, HcV, Hcf, HcP, HoP.
    assert (∀ i j, (i0, j0) ≠ (i, j) → untouched s' s2 i j) as Hother2.
    { intros i j Hne. eapply untouched_trans; [by apply Hother1 |].
      by apply inverted_cell_other. }
    constructor.
    + eapply same_grid_trans; [done | apply inverted_cell_grid].
    + by apply inverted_cell_sized.
    + subst s2 s1. members. by apply rows_mset.
    + done.
    + intros i j Hi' Hj' [Hbefore | [= -> ->]]%before_next.
      * eapply stripped_untouched; [by apply Hdone |].
        apply Hother2. intros [= -> ->]. by apply (before_irrefl i j).
      * destruct Hpriced as (? & ? & ? & ?).
        unfold stripped, priced. rewrite HcV, Hcf, HcP, HoP, Hsd, Hv.
        split_and!; try done.
        subst s1. members. by rewrite Htimes.
    + intros i j Hi' Hj' Hnot. eapply untouched_trans.
      * apply Htodo; [done | done |]. intros ?. apply Hnot, before_next. by left.
      * apply Hother2. intros [= -> ->]. apply Hnot, before_next. by right.
Qed.

Lemma inner_loop_spec s s' j0 :
  j0 < nStrikes_ s → progress s s' 0 j0 →
  match for_each (seq 0 (nOptionletTenors_ s)) (cell_body j0) 0.0%float s' with
  | Ok _ s'' => progress s s'' (nOptionletTenors_ s) j0
  | Raise d s'' => ∃ i0, failed_at s d s'' i0 j0
  end.
Proof.
  intros Hj Hprogress.
  pose proof (for_each_rule (cell_body j0)
                (λ i previous s'', previous = previousPrice_of s i j0 ∧
                                   progress s s'' i j0)
                (λ d s'', ∃ i0, failed_at s d s'' i0 j0)
                (nOptionletTenors_ s) 0 0.0%float s') as Hloop.
  cbn beta in Hloop.
  destruct (for_each _ _ _ _) as [previous s'' | d s''].
  - apply Hloop; [done |]. clear Hloop.
    intros i previous0 s0 _ Hi [-> Hprog].
    pose proof (cell_body_step s s0 i j0 Hi Hj Hprog) as Hstep.
    destruct (cell_body _ _ _ _); [done | by exists i].
  - apply Hloop; [done |]. clear Hloop.
    intros i previous0 s0 _ Hi [-> Hprog].
    pose proof (cell_body_step s s0 i j0 Hi Hj Hprog) as Hstep.
    destruct (cell_body _ _ _ _); [done | by exists i].
Qed.

(** *** The outer loop *)

Lemma strike_body_step s s' j0 :
  j0 < nStrikes_ s → progress s s' 0 j0 →
  match strike_body j0 () s' with
  | Ok _ s'' => progress s s'' 0 (S j0)
  | Raise d s'' => ∃ i0 j, failed_at s d s'' i0 j
  end.
Proof.
  intros Hj Hprogress. unfold strike_body, bind, this, ret.
  rewrite (same_nOptionletTenors _ _ (progress_grid _ _ _ _ Hprogress)).
  pose proof (inner_loop_spec s s' j0 Hj Hprogress) as Hinner.
  destruct (for_each _ _ _ _) as [previous s'' | d s''].
  - destruct Hinner as [Hgrid Hsized Hrows Hperiods Hdone Htodo].
    constructor; try done.
    + intros i j Hi Hj' Hbefore. apply Hdone; [done | done |].
      by apply before_row.
    + intros i j Hi Hj' Hnot. apply Htodo; [done | done |].
      intros Hbefore. by apply Hnot, (before_row (nOptionletTenors_ s)).
  - destruct Hinner as [i0 Hfailed]. by exists i0, j0.
Qed.

Lemma outer_loop_spec s s' :
  progress s s' 0 0 →
  match for_each (seq 0 (nStrikes_ s)) strike_body () s' with
  | Ok _ s'' => progress s s'' 0 (nStrikes_ s)
  | Raise d s'' => ∃ i0 j0, failed_at s d s'' i0 j0
  end.
Proof.
  intros Hprogress.
  pose proof (for_each_rule strike_body
                (λ j _ s'', progress s s'' 0 j)
                (λ d s'', ∃ i0 j0, failed_at s d s'' i0 j0)
                (nStrikes_ s) 0 () s') as Hloop.
  cbn beta in Hloop.
  destruct (for_each _ _ _ _) as [[] s'' | d s''].
  - apply Hloop; [done |]. clear Hloop. intros j [] s0 _ Hj Hprog.
    apply (strike_body_step s s0 j Hj Hprog).
  - apply Hloop; [done |]. clear Hloop. intros j [] s0 _ Hj Hprog.
    apply (strike_body_step s s0 j Hj Hprog).
Qed.

(** *** The first loop *)

Lemma warmup_start s : sized s → warmup s s 0.
Proof.
  intros Hsized. constructor; try done; try apply same_grid_refl; intros; lia.
Qed.

Lemma lookup_total_resize_None {B} (row : list (option B)) n j :
  j < n → resize n None row !!! j = row !!! j.
Proof.
  intros Hj. destruct (decide (j < length row)) as [Hlt | Hge].
  - by apply lookup_total_resize.
  - rewrite lookup_total_resize_new by lia.
    rewrite list_lookup_total_alt, lookup_ge_None_2 by lia. done.
Qed.

Lemma period_body_step s s' k :
  k < nOptionletTenors_ s → warmup s s' k →
  match period_body k () s' with
  | Ok _ s'' => warmup s s'' (S k)
  | Raise _ _ => False
  end.
Proof.
  intros Hk [Hgrid Hsized HcP HoP HcV HoV HoS Hrows Hhandles Hperiods].
  pose proof Hgrid as [_ _ HM _ _ _ HN].
  destruct (same_grid_forms _ _ Hgrid) as (Hdate & Htime & Hatm & _).
  pose proof Hsized as [_ _ _ _ _ _ _ _ Hlatm Hldates Hltimes Hlaccr Hlcf].
  rewrite HN in Hlatm, Hldates, Hltimes, Hlaccr, Hlcf.
  rewrite period_body_eq by lia.
  constructor; members; try done.
  - destruct Hgrid. by constructor.
  - destruct Hsized. constructor; members; try done;
      by rewrite ?length_insert, ?length_alter.
  - intros i Hi. destruct (decide (i = k)) as [-> | Hne].
    + rewrite list_lookup_total_alter_eq by lia. by rewrite length_resize.
    + rewrite list_lookup_total_alter_ne by done. apply Hrows. lia.
  - intros i j Hj. rewrite <- Hhandles by done. unfold mget.
    destruct (decide (i = k)) as [-> | Hne].
    + destruct (decide (k < length (capfloors_ s'))) as [Hlt | Hge]; [| lia].
      rewrite list_lookup_total_alter_eq by done.
      apply lookup_total_resize_None. by rewrite HM.
    + by rewrite list_lookup_total_alter_ne.
  - intros i Hi. destruct (decide (i = k)) as [-> | Hne].
    + rewrite !list_lookup_total_insert_eq by lia.
      by rewrite Hdate, Htime, Hatm.
    + rewrite !list_lookup_total_insert_ne by done. apply Hperiods. lia.
Qed.

Lemma first_loop_spec s :
  sized s →
  match for_each (seq 0 (nOptionletTenors_ s)) period_body () s with
  | Ok _ s' => progress s s' 0 0
  | Raise _ _ => False
  end.
Proof.
  intros Hsized.
  pose proof (for_each_rule period_body (λ k _ s', warmup s s' k) (λ _ _, False)
                (nOptionletTenors_ s) 0 () s (warmup_start s Hsized)) as Hloop.
  cbn beta in Hloop.
  destruct (for_each _ _ _ _) as [[] s' | d s'].
  - destruct Hloop as [Hgrid Hsized' HcP HoP HcV HoV HoS Hrows Hhandles Hperiods].
    { intros k [] s0 _ Hk Hwarm. apply (period_body_step s s0 k Hk Hwarm). }
    constructor; try done.
    + apply (Forall_lookup_total_2 _ _). intros i Hi. apply Hrows.
      destruct Hsized' as [_ _ _ _ _ _ _ _ _ _ _ _ Hlcf].
      rewrite Hlcf, (same_nOptionletTenors _ _ Hgrid) in Hi. done.
    + intros i j _ _ Hbefore. unfold before in Hbefore. lia.
    + intros i j Hi Hj _. unfold untouched, kept.
      rewrite HcP, HoP, HcV, HoV, HoS. split_and!; try done. by apply Hhandles.
  - apply Hloop. intros k [] s0 _ Hk Hwarm.
    apply (period_body_step s s0 k Hk Hwarm).
Qed.

(** *** The whole pass *)

(** On members of the right sizes the pass either completes with every cell
    stripped, or throws in one cell with the cells before it stripped and
    the cells after it as they were. *)
Lemma performCalculations_spec s :
  sized s →
  match performCalculations s with
  | Ok _ s' => progress s s' 0 (nStrikes_ s)
  | Raise d s' => ∃ i0 j0, failed_at s d s' i0 j0
  end.
Proof.
  intros Hsized. unfold performCalculations, bind, this.
  pose proof (first_loop_spec s Hsized) as Hfirst.
  destruct (for_each _ period_body _ _) as [[] s1 | d s1]; [| done].
  rewrite (same_nStrikes _ _ (progress_grid _ _ _ _ Hfirst)).
  apply (outer_loop_spec s s1 Hfirst).
Qed.

End PassFacts.

(** ** What the pass guarantees *)

Section PassTheorems.
Context {Period : Type} `{PeriodOps Period} `{!@Pricing Period}.
Implicit Types (s : @OptionletStripper Period) (d : Diagnostic).

(** A completed pass has stripped every cell. *)
Lemma completed_pass s s' i j :
  sized s → performCalculations s = Ok () s' →
  i < nOptionletTenors_ s → j < nStrikes_ s →
  same_grid s s' ∧ periods_set s s' ∧ stripped s s' i j.
Proof.
  intros Hsized Hrun Hi Hj.
  pose proof (performCalculations_spec s Hsized) as Hspec. rewrite Hrun in Hspec.
  destruct Hspec as [Hgrid _ _ Hperiods Hdone _]. split_and!; [done | done |].
  apply Hdone; [done | done |]. left. done.
Qed.

(** C4: in a completed pass the instrument of the cell [(i, j)] is a floor
    exactly when [strikes[j] < switchStrikes_[i]] and a cap otherwise, and
    the solver is called for a put exactly when the instrument is a floor
    and for a call exactly when it is a cap. *)
Theorem out_of_the_money_side s s' i j :
  sized s → performCalculations s = Ok () s' →
  i < nOptionletTenors_ s → j < nStrikes_ s →
  let strike := strikes (surface_ s) !!! j in
  let switchStrike := switchStrikes_ s !!! i in
  ∃ instrument optionletType,
    mget (capfloors_ s') i j = Some instrument ∧
    capFloorStrike instrument = strike ∧
    (capFloorType instrument = Floor ↔ (strike <? switchStrike)%float = true) ∧
    (capFloorType instrument = Cap ↔ (strike <? switchStrike)%float = false) ∧
    (optionletType = Put ↔ capFloorType instrument = Floor) ∧
    (optionletType = Call ↔ capFloorType instrument = Cap) ∧
    blackFormulaImpliedStdDev optionletType strike (atmOptionletRate s' !!! i)
      (mget (optionletPrices_ s') i j)
      (optionletAccrualPeriods_ s' !!! i
       * discount instrument (optionletDates_ s' !!! i))%float
      (mget (optionletStDevs_ s) i j)
    = inr (mget (optionletStDevs_ s') i j).
Proof.
  intros Hsized Hrun Hi Hj strike switchStrike.
  destruct (completed_pass s s' i j Hsized Hrun Hi Hj)
    as (_ & Hperiods & (_ & Hinstr & _ & Hprice) & Hsolve & _).
  destruct (Hperiods i Hi) as (Hdate & Haccrual & _ & Hatm).
  exists (instrument_of s i j), (optionletType_of (side_of s i j)).
  rewrite Hatm, Hprice, Haccrual, Hdate.
  split_and!; [done | done | | | | | exact Hsolve];
    cbn [capFloorType instrument_of]; unfold optionletType_of, side_of,
      capFloorType_of, strike_of; fold strike switchStrike;
    destruct (strike <? switchStrike)%float; cbn; split; done.
Qed.

(** C5, as amended: after a completed pass each optionlet price is the
    cap/floor price of its cell minus the one of the period before (minus
    0.0 for the first period), the difference being the rounded one of
    [double]; nothing is said of the sums of the optionlet prices of a
    column, which need not give the cap/floor prices back. *)
Theorem optionletPrices_differences s s' i j :
  sized s → performCalculations s = Ok () s' →
  i < nOptionletTenors_ s → j < nStrikes_ s →
  mget (optionletPrices_ s') i j
  = (mget (capfloorPrices_ s') i j
     - match i with
       | 0 => 0.0
       | S k => mget (capfloorPrices_ s') k j
       end)%float.
Proof.
  intros Hsized Hrun Hi Hj.
  destruct (completed_pass s s' i j Hsized Hrun Hi Hj)
    as (_ & _ & (_ & _ & HcP & HoP) & _).
  rewrite HoP, HcP. unfold optionletPrice_of, previousPrice_of.
  destruct i as [| k]; [done |].
  destruct (completed_pass s s' k j Hsized Hrun ltac:(lia) Hj)
    as (_ & _ & (_ & _ & HcP' & _) & _).
  by rewrite HcP'.
Qed.

(** C6: after a completed pass the volatility of every cell is its standard
    deviation divided by the square root of the time of its period. *)
Theorem optionletVols_annualized s s' i j :
  sized s → performCalculations s = Ok () s' →
  i < nOptionletTenors_ s → j < nStrikes_ s →
  mget (optionletVols_ s') i j
  = (mget (optionletStDevs_ s') i j / PrimFloat.sqrt (optionletTimes_ s' !!! i))%float.
Proof.
  intros Hsized Hrun Hi Hj.
  destruct (completed_pass s s' i j Hsized Hrun Hi Hj)
    as (_ & Hperiods & _ & _ & Hvol).
  destruct (Hperiods i Hi) as (_ & _ & Htime & _).
  by rewrite Htime.
Qed.

(** A pass that throws has thrown in one cell. *)
Lemma failed_pass s d s' :
  sized s → performCalculations s = Raise d s' → ∃ i0 j0, failed_at s d s' i0 j0.
Proof.
  intros Hsized Hrun.
  pose proof (performCalculations_spec s Hsized) as Hspec. by rewrite Hrun in Hspec.
Qed.

(** C8: when the solver fails for a cell the pass throws; the exception
    carries the date of the period, the option type, the strike, the forward
    rate, the price of the optionlet, the annuity and the message of the
    solver for the cell where it was thrown; that cell keeps its standard
    deviation and volatility, the cells handled before it are stripped and
    no cell after it is computed. *)
Theorem solver_failure_aborts s :
  sized s →
  (∀ i j what, i < nOptionletTenors_ s → j < nStrikes_ s →
     solve s i j = inl what → ∃ d s', performCalculations s = Raise d s') ∧
  (∀ d s', performCalculations s = Raise d s' →
     ∃ i0 j0 instrument,
       i0 < nOptionletTenors_ s ∧ j0 < nStrikes_ s ∧
       mget (capfloors_ s') i0 j0 = Some instrument ∧
       solve s i0 j0 = inl (diag_what d) ∧
       diag_date d = optionletDates_ s' !!! i0 ∧
       diag_type d = optionletType_of (capFloorType instrument) ∧
       diag_strike d = strikes (surface_ s) !!! j0 ∧
       diag_atm d = atmOptionletRate s' !!! i0 ∧
       diag_price d = mget (optionletPrices_ s') i0 j0 ∧
       diag_annuity d
       = (optionletAccrualPeriods_ s' !!! i0
          * discount instrument (optionletDates_ s' !!! i0))%float ∧
       kept s s' i0 j0 ∧
       (∀ i j, i < nOptionletTenors_ s → j < nStrikes_ s → before i j i0 j0 →
          solve s i j = inr (mget (optionletStDevs_ s') i j)) ∧
       (∀ i j, i < nOptionletTenors_ s → j < nStrikes_ s →
          ¬ before i j i0 j0 → (i, j) ≠ (i0, j0) → untouched s s' i j)).
Proof.
  intros Hsized. split.
  - intros i j what Hi Hj Hsolve.
    destruct (performCalculations s) as [[] s' | d s'] eqn:Hrun; [| by eauto].
    destruct (completed_pass s s' i j Hsized Hrun Hi Hj) as (_ & _ & _ & Hok & _).
    congruence.
  - intros d s' Hrun.
    destruct (failed_pass s d s' Hsized Hrun) as (i0 & j0 & Hfailed).
    destruct Hfailed as [_ _ Hperiods [Hi Hj] (what & Hsolve & ->)
                           [(_ & Hinstr & _ & Hprice) Hkept] Hdone Htodo].
    destruct (Hperiods i0 Hi) as (Hdate & Haccrual & _ & Hatm).
    exists i0, j0, (instrument_of s i0 j0).
    rewrite Hdate, Hatm, Hprice, Haccrual.
    split_and!; try done.
    intros i j Hi' Hj' Hbefore. by destruct (Hdone i j Hi' Hj' Hbefore) as (_ & ? & _).
Qed.

(** C9: the constructor fills [optionletStDevs_] with the first guess 0.14,
    which is positive; the body of the inner loop passes the cell's own
    standard deviation to the solver as the guess, overwrites the cell with
    the result when the solver returns and leaves it as it was when the
    solver throws; so after a pass, however it ends, each cell holds either
    the value it had or the result of the solver started from that value. *)
Theorem warm_start :
  (∀ fuel surface index switchStrikes s i j,
     OptionletStripper_new fuel surface index switchStrikes = Returns s →
     i < nOptionletTenors_ s → j < nStrikes_ s →
     mget (optionletStDevs_ s) i j = 0.14%float ∧ (0 <? 0.14)%float = true) ∧
  (∀ s j i previousCapFloorPrice,
     sized s → Forall (λ row, length row = nStrikes_ s) (capfloors_ s) →
     i < nOptionletTenors_ s → j < nStrikes_ s →
     let guess := mget (optionletStDevs_ s) i j in
     let result :=
       blackFormulaImpliedStdDev (optionletType_of (side_of s i j))
         (strike_of s j) (atmOptionletRate s !!! i)
         (NPV (instrument_of s i j) - previousCapFloorPrice)%float
         (optionletAccrualPeriods_ s !!! i
          * discount (instrument_of s i j) (optionletDates_ s !!! i))%float
         guess in
     match cell_body j i previousCapFloorPrice s with
     | Ok _ s' => result = inr (mget (optionletStDevs_ s') i j)
     | Raise d s' =>
         result = inl (diag_what d) ∧ mget (optionletStDevs_ s') i j = guess
     end) ∧
  (∀ s i j,
     sized s → i < nOptionletTenors_ s → j < nStrikes_ s →
     let s' := members_after (performCalculations s) in
     mget (optionletStDevs_ s') i j = mget (optionletStDevs_ s) i j ∨
     inversion_of s i j (0.5 * discount_of s i j)%float
       (mget (optionletStDevs_ s) i j)
     = inr (mget (optionletStDevs_ s') i j)).
Proof.
  split_and!.
  - intros fuel surface index switchStrikes s i j Hnew Hi Hj.
    apply new_returns in Hnew
      as (_ & ts & _ & _ & _ & _ & _ & HM & HN & _ & _ & _ & Hguess & _).
    rewrite Hguess. rewrite HN in Hi. rewrite HM in Hj.
    unfold Matrix_new. by rewrite mget_Matrix_cells.
  - intros s j i previousCapFloorPrice Hsized Hrows Hi Hj guess result.
    rewrite cell_body_eq by done. fold guess. fold result.
    destruct result as [what | stdDev] eqn:Hresult.
    + split; [done |].
      by destruct (priced_cell_here j i previousCapFloorPrice s Hsized Hrows Hi Hj)
        as (_ & _ & _ & _ & ? & _).
    + pose proof (priced_cell_sized j i previousCapFloorPrice s Hsized) as Hsized1.
      by destruct (inverted_cell_here j i stdDev _ Hsized1 Hi Hj) as (-> & _).
  - intros s i j Hsized Hi Hj s'. subst s'.
    pose proof (performCalculations_spec s Hsized) as Hspec.
    destruct (performCalculations s) as [[] s' | d s']; cbn [members_after].
    + right. destruct Hspec as [_ _ _ _ Hdone _].
      destruct (Hdone i j Hi Hj) as (_ & ? & _); [by left | done].
    + destruct Hspec as (i0 & j0 & [_ _ _ _ _ [_ [Hkept _]] Hdone Htodo]).
      destruct (decide (before i j i0 j0)) as [Hbefore | Hnot].
      * right. by destruct (Hdone i j Hi Hj Hbefore) as (_ & ? & _).
      * left. destruct (decide ((i, j) = (i0, j0))) as [[= -> ->] | Hne]; [done |].
        by destruct (Htodo i j Hi Hj Hnot Hne) as (_ & _ & _ & _ & ? & _).
Qed.

(** C10: whatever the index, the day counter and the dates, the pass sets
    the accrual period of every period to 0.5, and the annuity it passes to
    the solver, and reports when the solver fails, is 0.5 times the discount
    factor of the cell's instrument at the date of the period. *)
Theorem accrual_period_is_half s :
  sized s →
  (∀ i, i < nOptionletTenors_ s →
     optionletAccrualPeriods_ (members_after (performCalculations s)) !!! i
     = 0.5%float) ∧
  (∀ s', performCalculations s = Ok () s' →
     ∀ i j, i < nOptionletTenors_ s → j < nStrikes_ s →
       ∃ instrument,
         mget (capfloors_ s') i j = Some instrument ∧
         inversion_of s i j
           (0.5 * discount instrument (optionletDates_ s' !!! i))%float
           (mget (optionletStDevs_ s) i j)
         = inr (mget (optionletStDevs_ s') i j)) ∧
  (∀ d s', performCalculations s = Raise d s' →
     ∃ i j instrument,
       i < nOptionletTenors_ s ∧ j < nStrikes_ s ∧
       mget (capfloors_ s') i j = Some instrument ∧
       diag_annuity d
       = (0.5 * discount instrument (optionletDates_ s' !!! i))%float ∧
       inversion_of s i j (diag_annuity d) (mget (optionletStDevs_ s) i j)
       = inl (diag_what d)).
Proof.
  intros Hsized. split_and!.
  - intros i Hi. pose proof (performCalculations_spec s Hsized) as Hspec.
    destruct (performCalculations s) as [[] s' | d s']; cbn [members_after].
    + destruct Hspec as [_ _ _ Hperiods _ _].
      by destruct (Hperiods i Hi) as (_ & ? & _).
    + destruct Hspec as (i0 & j0 & [_ _ Hperiods _ _ _ _ _]).
      by destruct (Hperiods i Hi) as (_ & ? & _).
  - intros s' Hrun i j Hi Hj.
    destruct (completed_pass s s' i j Hsized Hrun Hi Hj)
      as (_ & Hperiods & (_ & Hinstr & _) & Hsolve & _).
    destruct (Hperiods i Hi) as (Hdate & _).
    exists (instrument_of s i j). split; [done |]. by rewrite Hdate.
  - intros d s' Hrun.
    destruct (failed_pass s d s' Hsized Hrun) as (i0 & j0 & Hfailed).
    destruct Hfailed as [_ _ Hperiods [Hi Hj] (what & Hsolve & ->)
                           [(_ & Hinstr & _) _] _ _].
    destruct (Hperiods i0 Hi) as (Hdate & _).
    exists i0, j0, (instrument_of s i0 j0). rewrite Hdate.
    split_and!; done.
Qed.

Lemma completes_Ok (r : Run (Period := Period) ()) :
  completes r = true → r = Ok () (members_after r).
Proof. by destruct r as [[] s | d s]. Defined.

(** The pass keeps the sizes and leaves every row of instruments with one
    cell per strike. *)
Lemma pass_keeps_sized s :
  sized s →
  let s' := members_after (performCalculations s) in
  sized s' ∧ nOptionletTenors_ s' = nOptionletTenors_ s ∧
  nStrikes_ s' = nStrikes_ s ∧
  (completes (performCalculations s) = true →
   Forall (λ row, length row = nStrikes_ s') (capfloors_ s')).
Proof.
  intros Hsized. pose proof (performCalculations_spec s Hsized) as Hspec.
  destruct (performCalculations s) as [[] s' | d s']; cbn [members_after completes].
  - destruct Hspec as [[] ? Hrows _ _ _]. split_and!; try done.
    intros _. by rewrite same_nStrikes0.
  - destruct Hspec as (i0 & j0 & [[] ? _ _ _ _ _ _]). split_and!; done.
Qed.

End PassTheorems.

(** ** Scenarios in whole months *)

Section Scenarios.
Import MonthPeriod Example.

Lemma month_times n (p : t) :
  period_times (S n) p = M (Z.of_nat (S n) * months p).
Proof.
  rewrite <- (months_times months) by (intros; reflexivity).
  by destruct (period_times (S n) p).
Qed.

(** C3: with an index tenor of 3 months and quotes up to 2 years, the
    ladder has exactly the 7 optionlet tenors 3M, 6M, ..., 21M with the
    cumulative lengths 6M, 9M, ..., 24M, as soon as the loop is given the 7
    tests of its condition it needs; an eighth period would have the length
    27M, which is more than 24M. *)
Theorem scenario_3M_2Y :
  (∀ fuel,
     tenor_grid fuel (M 3) (Y 2)
     = if fuel <? 7 then OutOfFuel
       else Returns ([M 3; M 6; M 9; M 12; M 15; M 18; M 21],
                     [M 6; M 9; M 12; M 15; M 18; M 21; M 24])) ∧
  period_add (M 24) (M 3) = M 27 ∧
  period_le (M 27) (Y 2) = false ∧
  (∀ fuel,
     ∃ s, OptionletStripper_new (7 + fuel) flat_surface (index 3) [] = Returns s ∧
          nOptionletTenors_ s = 7 ∧
          optionletTenors_ s = [M 3; M 6; M 9; M 12; M 15; M 18; M 21] ∧
          capfloorLengths_ s = [M 6; M 9; M 12; M 15; M 18; M 21; M 24]).
Proof.
  split_and!.
  - intros fuel. do 7 (destruct fuel as [| fuel]; [reflexivity |]). reflexivity.
  - reflexivity.
  - reflexivity.
  - intros fuel. eexists. split; [reflexivity |]. split_and!; reflexivity.
Qed.

(** C1, as stated, fails: with an index tenor of 3 months and quotes up to
    2 years the first cumulative length (i = 0) is 6M, which is not
    [(0+1) * 3M]. *)
Lemma capfloorLengths_first_is_two_tenors :
  ∃ s, OptionletStripper_new 8 flat_surface (index 3) [] = Returns s ∧
       0 < nOptionletTenors_ s ∧
       capfloorLengths_ s !! 0 = Some (M 6) ∧
       M (Z.of_nat (0 + 1) * months (tenor (index 3))) = M 3 ∧
       capfloorLengths_ s !! 0 ≠ Some (M (Z.of_nat (0 + 1) * months (tenor (index 3)))).
Proof.
  eexists. split; [reflexivity |].
  split_and!; [cbn; lia | reflexivity | reflexivity | cbn; intros [=]].
Qed.

Lemma capfloorLengths_multiples_witness :
  ∃ s, OptionletStripper_new 8 flat_surface (index 3) [] = Returns s ∧
       2 < nOptionletTenors_ s ∧
       optionletTenors_ s !! 2 = Some (period_times (2 + 1) (tenor (index 3))) ∧
       capfloorLengths_ s !! 2 = Some (period_times (2 + 2) (tenor (index 3))) ∧
       capfloorLengths_ s !! 2
       = (λ p, period_add p (tenor (index 3))) <$> optionletTenors_ s !! 2.
Proof.
  eexists. split; [reflexivity |]. split; [cbn; lia |].
  apply (capfloorLengths_multiples 8 flat_surface (index 3) []);
    [reflexivity | cbn; lia].
Defined.

Lemma capfloorLengths_ladder_witness :
  (∀ a b : t, months (period_add a b) = (months a + months b)%Z) ∧
  (∀ a b : t, period_le a b = (months a <=? months b)%Z) ∧
  last (optionTenors flat_surface) = Some (Y 2) ∧
  (∀ s, OptionletStripper_new 8 flat_surface (index 6) [] = Returns s →
     length (optionletTenors_ s) = nOptionletTenors_ s ∧
     length (capfloorLengths_ s) = nOptionletTenors_ s ∧
     (∀ i, 1 ≤ i → i < nOptionletTenors_ s →
        capfloorLengths_ s !!! i
        = period_add (capfloorLengths_ s !!! (i - 1)) (tenor (index 6)) ∧
        period_lt (capfloorLengths_ s !!! (i - 1)) (capfloorLengths_ s !!! i) = true) ∧
     (∀ i, i < nOptionletTenors_ s →
        period_le (capfloorLengths_ s !!! i) (Y 2) = true)) ∧
  (period_le (period_add (tenor (index 6)) (tenor (index 6))) (Y 2) = false →
   OptionletStripper_new 8 flat_surface (index 6) []
   = Throws "too short capfloor term vol surface").
Proof.
  split; [reflexivity |]. split; [reflexivity |]. split; [reflexivity |].
  exact (capfloorLengths_ladder months (λ _ _, eq_refl) (λ _ _, eq_refl)
           8 flat_surface (index 6) [] (Y 2) eq_refl).
Defined.

Lemma switchStrikes_normalization_witness :
  last (optionTenors flat_surface) = Some (Y 2) ∧
  tenor_grid 8 (tenor (index 6)) (Y 2)
  = Returns ([M 6; M 12; M 18], [M 12; M 18; M 24]) ∧
  (∃ s, OptionletStripper_new 8 flat_surface (index 6) [0.04; 0.02; 0.06]%float
        = Returns s) ∧
  OptionletStripper_new 8 flat_surface (index 6) [0.04; 0.02]%float
  = Throws "nOptionletTenors_!=switchStrikes_.size()".
Proof.
  split; [reflexivity |]. split; [reflexivity |].
  pose proof (switchStrikes_normalization 8 flat_surface (index 6)
                [0.04; 0.02; 0.06]%float (Y 2) [M 6; M 12; M 18]
                [M 12; M 18; M 24] eq_refl eq_refl) as (_ & _ & Hthree & _).
  pose proof (switchStrikes_normalization 8 flat_surface (index 6)
                [0.04; 0.02]%float (Y 2) [M 6; M 12; M 18]
                [M 12; M 18; M 24] eq_refl eq_refl) as (_ & _ & Htwo & _).
  split.
  - apply Hthree; [cbn; lia | reflexivity].
  - apply Htwo; cbn; lia.
Defined.

Lemma flat_built : OptionletStripper_new 8 flat_surface (index 6) [] = Returns flat.
Proof. reflexivity. Defined.

Lemma falling_built :
  OptionletStripper_new 8 falling_surface (index 6) [0.04%float] = Returns falling.
Proof. reflexivity. Defined.

Lemma flat_sized : sized flat.
Proof. exact (new_sized _ _ _ _ _ flat_built). Defined.

Lemma falling_sized : sized falling.
Proof. exact (new_sized _ _ _ _ _ falling_built). Defined.

Lemma flat_completes : performCalculations flat = Ok () flat_stripped.
Proof. unfold flat_stripped. apply completes_Ok. vm_compute. reflexivity. Defined.

Lemma out_of_the_money_side_witness :
  sized flat ∧ performCalculations flat = Ok () flat_stripped ∧
  1 < nOptionletTenors_ flat ∧ 0 < nStrikes_ flat ∧
  let strike := strikes (surface_ flat) !!! 0 in
  let switchStrike := switchStrikes_ flat !!! 1 in
  ∃ instrument optionletType,
    mget (capfloors_ flat_stripped) 1 0 = Some instrument ∧
    capFloorStrike instrument = strike ∧
    (capFloorType instrument = Floor ↔ (strike <? switchStrike)%float = true) ∧
    (capFloorType instrument = Cap ↔ (strike <? switchStrike)%float = false) ∧
    (optionletType = Put ↔ capFloorType instrument = Floor) ∧
    (optionletType = Call ↔ capFloorType instrument = Cap) ∧
    blackFormulaImpliedStdDev optionletType strike
      (atmOptionletRate flat_stripped !!! 1%nat)
      (mget (optionletPrices_ flat_stripped) 1%nat 0%nat)
      (optionletAccrualPeriods_ flat_stripped !!! 1%nat
       * discount instrument (optionletDates_ flat_stripped !!! 1%nat))%float
      (mget (optionletStDevs_ flat) 1%nat 0%nat)
    = inr (mget (optionletStDevs_ flat_stripped) 1 0).
Proof.
  assert (1 < nOptionletTenors_ flat) as Hi by (cbn; lia).
  assert (0 < nStrikes_ flat) as Hj by (cbn; lia).
  split; [exact flat_sized |]. split; [exact flat_completes |].
  split; [exact Hi |]. split; [exact Hj |].
  exact (out_of_the_money_side flat flat_stripped 1 0 flat_sized flat_completes Hi Hj).
Defined.

Lemma optionletPrices_differences_witness :
  sized flat ∧ performCalculations flat = Ok () flat_stripped ∧
  2 < nOptionletTenors_ flat ∧ 0 < nStrikes_ flat ∧
  mget (optionletPrices_ flat_stripped) 2 0
  = (mget (capfloorPrices_ flat_stripped) 2 0
     - mget (capfloorPrices_ flat_stripped) 1 0)%float.
Proof.
  assert (2 < nOptionletTenors_ flat) as Hi by (cbn; lia).
  assert (0 < nStrikes_ flat) as Hj by (cbn; lia).
  split; [exact flat_sized |]. split; [exact flat_completes |].
  split; [exact Hi |]. split; [exact Hj |].
  exact (optionletPrices_differences flat flat_stripped 2 0 flat_sized
           flat_completes Hi Hj).
Defined.

(** C5, as stated, fails: with the cap/floor prices 0.001 and 0.01 in a
    column, the optionlet prices 0.001 and 0.009000000000000001 add up to
    0.010000000000000002 and not to 0.01. *)
Lemma column_sum_is_rounded :
  performCalculations (H0 := rounding_pricing) flat = Ok () rounded_stripped ∧
  mget (capfloorPrices_ rounded_stripped) 0 0 = 0.001%float ∧
  mget (capfloorPrices_ rounded_stripped) 1 0 = 0.01%float ∧
  column_sum (optionletPrices_ rounded_stripped) 1 0 = 0x1.47ae147ae147cp-7%float ∧
  column_sum (optionletPrices_ rounded_stripped) 1 0
  ≠ mget (capfloorPrices_ rounded_stripped) 1 0.
Proof.
  split; [unfold rounded_stripped; apply completes_Ok; vm_compute; reflexivity |].
  split; [vm_compute; reflexivity |]. split; [vm_compute; reflexivity |].
  split; [vm_compute; reflexivity |].
  intros Heq. apply (f_equal (λ x, PrimFloat.eqb x 0.01%float)) in Heq.
  vm_compute in Heq. discriminate Heq.
Qed.

Lemma optionletVols_annualized_witness :
  sized flat ∧ performCalculations flat = Ok () flat_stripped ∧
  2 < nOptionletTenors_ flat ∧ 1 < nStrikes_ flat ∧
  mget (optionletVols_ flat_stripped) 2 1
  = (mget (optionletStDevs_ flat_stripped) 2 1
     / PrimFloat.sqrt (optionletTimes_ flat_stripped !!! 2%nat))%float.
Proof.
  assert (2 < nOptionletTenors_ flat) as Hi by (cbn; lia).
  assert (1 < nStrikes_ flat) as Hj by (cbn; lia).
  split; [exact flat_sized |]. split; [exact flat_completes |].
  split; [exact Hi |]. split; [exact Hj |].
  exact (optionletVols_annualized flat flat_stripped 2 1 flat_sized flat_completes
           Hi Hj).
Defined.

Lemma solver_failure_aborts_witness :
  sized falling ∧
  1 < nOptionletTenors_ falling ∧ 0 < nStrikes_ falling ∧
  solve falling 1 0 = inl "root not bracketed"%string ∧
  ∃ d s',
    performCalculations falling = Raise d s' ∧
    ∃ i0 j0 instrument,
      i0 < nOptionletTenors_ falling ∧ j0 < nStrikes_ falling ∧
      mget (capfloors_ s') i0 j0 = Some instrument ∧
      solve falling i0 j0 = inl (diag_what d) ∧
      diag_date d = optionletDates_ s' !!! i0 ∧
      diag_type d = optionletType_of (capFloorType instrument) ∧
      diag_strike d = strikes (surface_ falling) !!! j0 ∧
      diag_atm d = atmOptionletRate s' !!! i0 ∧
      diag_price d = mget (optionletPrices_ s') i0 j0 ∧
      diag_annuity d
      = (optionletAccrualPeriods_ s' !!! i0
         * discount instrument (optionletDates_ s' !!! i0))%float ∧
      kept falling s' i0 j0 ∧
      (∀ i j, i < nOptionletTenors_ falling → j < nStrikes_ falling →
         before i j i0 j0 →
         solve falling i j = inr (mget (optionletStDevs_ s') i j)) ∧
      (∀ i j, i < nOptionletTenors_ falling → j < nStrikes_ falling →
         ¬ before i j i0 j0 → (i, j) ≠ (i0, j0) → untouched falling s' i j).
Proof.
  assert (1 < nOptionletTenors_ falling) as Hi by (cbn; lia).
  assert (0 < nStrikes_ falling) as Hj by (cbn; lia).
  assert (solve falling 1 0 = inl "root not bracketed"%string) as Hsolve
    by (vm_compute; reflexivity).
  destruct (solver_failure_aborts falling falling_sized) as [Hthrows Hreport].
  destruct (Hthrows 1 0 _ Hi Hj Hsolve) as (d & s' & Hrun).
  split; [exact falling_sized |]. split; [exact Hi |]. split; [exact Hj |].
  split; [exact Hsolve |]. exists d, s'. split; [exact Hrun |].
  exact (Hreport d s' Hrun).
Defined.

Lemma flat_stripped_sized :
  sized flat_stripped ∧
  Forall (λ row, length row = nStrikes_ flat_stripped) (capfloors_ flat_stripped).
Proof.
  destruct (pass_keeps_sized flat flat_sized) as (Hsized & _ & _ & Hrows).
  split; [exact Hsized |]. apply Hrows. vm_compute. reflexivity.
Defined.

Lemma warm_start_witness :
  (OptionletStripper_new 8 flat_surface (index 6) [] = Returns flat ∧
   2 < nOptionletTenors_ flat ∧ 1 < nStrikes_ flat ∧
   mget (optionletStDevs_ flat) 2 1 = 0.14%float ∧ (0 <? 0.14)%float = true) ∧
  (sized flat_stripped ∧
   Forall (λ row, length row = nStrikes_ flat_stripped) (capfloors_ flat_stripped) ∧
   1 < nOptionletTenors_ flat_stripped ∧ 0 < nStrikes_ flat_stripped ∧
   let guess := mget (optionletStDevs_ flat_stripped) 1 0 in
   let result :=
     blackFormulaImpliedStdDev (optionletType_of (side_of flat_stripped 1 0))
       (strike_of flat_stripped 0) (atmOptionletRate flat_stripped !!! 1%nat)
       (NPV (instrument_of flat_stripped 1 0) - 0.0029296875)%float
       (optionletAccrualPeriods_ flat_stripped !!! 1%nat
        * discount (instrument_of flat_stripped 1 0)
            (optionletDates_ flat_stripped !!! 1%nat))%float
       guess in
   match cell_body 0 1 0.0029296875%float flat_stripped with
   | Ok _ s' => result = inr (mget (optionletStDevs_ s') 1 0)
   | Raise d s' =>
       result = inl (diag_what d) ∧ mget (optionletStDevs_ s') 1 0 = guess
   end) ∧
  (sized falling ∧ 1 < nOptionletTenors_ falling ∧ 0 < nStrikes_ falling ∧
   (mget (optionletStDevs_ falling_stripped) 1 0
    = mget (optionletStDevs_ falling) 1 0 ∨
    inversion_of falling 1 0 (0.5 * discount_of falling 1 0)%float
      (mget (optionletStDevs_ falling) 1 0)
    = inr (mget (optionletStDevs_ falling_stripped) 1 0))).
Proof.
  destruct (warm_start (Period := t)) as (Hfirst & Hcell & Hpass).
  destruct flat_stripped_sized as [Hsized Hrows].
  assert (2 < nOptionletTenors_ flat) as Hi by (cbn; lia).
  assert (1 < nStrikes_ flat) as Hj by (cbn; lia).
  assert (1 < nOptionletTenors_ flat_stripped) as Hi1 by (vm_compute; lia).
  assert (0 < nStrikes_ flat_stripped) as Hj1 by (vm_compute; lia).
  assert (1 < nOptionletTenors_ falling) as Hi' by (cbn; lia).
  assert (0 < nStrikes_ falling) as Hj' by (cbn; lia).
  split; [| split].
  - split; [exact flat_built |]. split; [exact Hi |]. split; [exact Hj |].
    exact (Hfirst 8 flat_surface (index 6) [] flat 2 1 flat_built Hi Hj).
  - split; [exact Hsized |]. split; [exact Hrows |].
    split; [exact Hi1 |]. split; [exact Hj1 |].
    exact (Hcell flat_stripped 0 1 0.0029296875%float Hsized Hrows Hi1 Hj1).
  - split; [exact falling_sized |]. split; [exact Hi' |]. split; [exact Hj' |].
    exact (Hpass falling 1 0 falling_sized Hi' Hj').
Defined.

Lemma accrual_period_is_half_witness :
  sized flat ∧ performCalculations flat = Ok () flat_stripped ∧
  2 < nOptionletTenors_ flat ∧ 1 < nStrikes_ flat ∧
  optionletAccrualPeriods_ (members_after (performCalculations flat)) !!! 2%nat
  = 0.5%float ∧
  ∃ instrument,
    mget (capfloors_ flat_stripped) 2 1 = Some instrument ∧
    inversion_of flat 2 1
      (0.5 * discount instrument (optionletDates_ flat_stripped !!! 2%nat))%float
      (mget (optionletStDevs_ flat) 2%nat 1%nat)
    = inr (mget (optionletStDevs_ flat_stripped) 2 1).
Proof.
  assert (2 < nOptionletTenors_ flat) as Hi by (cbn; lia).
  assert (1 < nStrikes_ flat) as Hj by (cbn; lia).
  destruct (accrual_period_is_half flat flat_sized) as (Hhalf & Hcalls & _).
  split; [exact flat_sized |]. split; [exact flat_completes |].
  split; [exact Hi |]. split; [exact Hj |]. split; [exact (Hhalf 2 Hi) |].
  exact (Hcalls flat_stripped flat_completes 2 1 Hi Hj).
Defined.

End Scenarios.

(** * Further properties of the constructor *)

Section MoreConstructorFacts.
Context {Period : Type} `{PeriodOps Period}.
Implicit Types (surface : @CapFloorTermVolSurface Period).
Implicit Types (index : @IborIndex Period) (s : @OptionletStripper Period).
Implicit Types (switchStrikes : list Rate).

(** X1: a built stripper has at least one period, holds the surface and the
    index it was given, has one column per strike of the surface, vectors
    and matrices of the sizes [nOptionletTenors_] and [nStrikes_], zeroed
    per-period vectors and empty rows of instruments. *)
Theorem constructed_members fuel surface index switchStrikes s :
  OptionletStripper_new fuel surface index switchStrikes = Returns s →
  sized s ∧ 0 < nOptionletTenors_ s ∧
  OptionletStripper_surface s = surface ∧ index_ s = index ∧
  nStrikes_ s = length (OptionletStripper_strikes s) ∧
  atmOptionletRate s = replicate (nOptionletTenors_ s) 0%float ∧
  optionletDates_ s = replicate (nOptionletTenors_ s) 0%Z ∧
  optionletTimes_ s = replicate (nOptionletTenors_ s) 0%float ∧
  optionletAccrualPeriods_ s = replicate (nOptionletTenors_ s) 0%float ∧
  capfloors_ s = replicate (nOptionletTenors_ s) [].
Proof.
  intros Hnew. pose proof (new_sized _ _ _ _ _ Hnew) as Hsized.
  unfold OptionletStripper_new in Hnew.
  destruct (last (optionTenors surface)) as [maxCapFloorTenor |]; [| done].
  destruct (tenor_grid fuel (tenor index) maxCapFloorTenor)
    as [[ts ls] | | |] eqn:Hgrid; try done.
  destruct (_ =? _); [| done]. injection Hnew as <-.
  destruct (tenor_grid_lengths _ _ _ _ _ Hgrid) as [_ Hpos].
  split_and!; done.
Qed.

(** X2: the ladder of a built stripper is the longest that fits: its last
    cumulative length is not longer than the last maturity quoted on the
    surface, and one index tenor more would be. *)
Theorem ladder_is_maximal fuel surface index switchStrikes s maxCapFloorTenor :
  OptionletStripper_new fuel surface index switchStrikes = Returns s →
  last (optionTenors surface) = Some maxCapFloorTenor →
  period_le (back (capfloorLengths_ s)) maxCapFloorTenor = true ∧
  period_le (period_add (back (capfloorLengths_ s)) (tenor index)) maxCapFloorTenor
  = false.
Proof.
  intros Hnew Hlast. apply new_returns in Hnew
    as (maxCapFloorTenor' & ts & ls & Hlast' & Hgrid & _ & _ & _ & _ & _ & Hls & _).
  assert (maxCapFloorTenor' = maxCapFloorTenor) as -> by congruence.
  apply tenor_grid_spec in Hgrid as (m & _ & -> & Hfit & Hstop).
  rewrite Hls, back_ladder. split; [by apply Hfit | done].
Qed.

Section Scale.
Variable months : Period → Z.
Hypothesis months_add : ∀ a b, months (period_add a b) = (months a + months b)%Z.
Hypothesis months_le : ∀ a b, period_le a b = (months a <=? months b)%Z.

(** X3: when the periods add and compare on a common scale, a built
    stripper has a positive index tenor and as many periods as the index
    tenor goes into the last quoted maturity, less one. *)
Theorem number_of_periods fuel surface index switchStrikes s maxCapFloorTenor :
  OptionletStripper_new fuel surface index switchStrikes = Returns s →
  last (optionTenors surface) = Some maxCapFloorTenor →
  (0 < months (tenor index))%Z ∧
  Z.of_nat (nOptionletTenors_ s)
  = (months maxCapFloorTenor / months (tenor index) - 1)%Z.
Proof.
  intros Hnew Hlast. apply new_returns in Hnew
    as (maxCapFloorTenor' & ts & ls & Hlast' & Hgrid & _ & _ & _ & HN & _).
  assert (maxCapFloorTenor' = maxCapFloorTenor) as -> by congruence.
  apply tenor_grid_spec in Hgrid as (m & -> & _ & Hfit & Hstop).
  pose proof (ladder_positive months months_add months_le _ _ _
                (Hfit m (le_n _)) Hstop) as Hpos.
  split; [done |]. rewrite HN, length_ladder.
  specialize (Hfit m (le_n _)). rewrite months_le in Hfit, Hstop.
  cbn [Nat.add] in Hfit, Hstop.
  rewrite (months_times months months_add) in Hfit, Hstop.
  apply Z.leb_le in Hfit. apply Z.leb_gt in Hstop.
  assert (months maxCapFloorTenor / months (tenor index) = Z.of_nat (S (S m)))%Z
    as ->; [| lia].
  symmetry. apply Z.div_unique_pos
    with (r := (months maxCapFloorTenor
                - Z.of_nat (S (S m)) * months (tenor index))%Z); lia.
Qed.

(** X4: with a positive index tenor of which two fit under the last quoted
    maturity the loop of the constructor stops: from some fuel on the
    constructor ends the same way whatever fuel is added, and that is
    either a built stripper or the exception about the number of switch
    strikes; with no or one switch strike it is a built stripper. *)
Theorem constructor_stops surface index switchStrikes maxCapFloorTenor :
  last (optionTenors surface) = Some maxCapFloorTenor →
  (0 < months (tenor index))%Z →
  period_le (period_add (tenor index) (tenor index)) maxCapFloorTenor = true →
  ∃ fuel outcome,
    (∀ extra,
       OptionletStripper_new (fuel + extra) surface index switchStrikes = outcome) ∧
    ((∃ s, outcome = Returns s) ∨
     outcome = Throws "nOptionletTenors_!=switchStrikes_.size()") ∧
    (length switchStrikes ≤ 1 → ∃ s, outcome = Returns s).
Proof.
  intros Hlast Hpos Hfirst.
  destruct (tenor_grid_stops months months_add months_le _ _ Hpos Hfirst)
    as (fuel & [ts ls] & Hgrid).
  exists fuel, (OptionletStripper_new (fuel + 0) surface index switchStrikes).
  split_and!.
  - intros extra. unfold OptionletStripper_new. by rewrite Hlast, !Hgrid.
  - destruct (new_unfold _ surface index switchStrikes _ _ _ Hlast (Hgrid 0))
      as [[_ Hthrow] | [_ (s & Hs & _)]]; [by right | left; by exists s].
  - intros Hlen.
    destruct (new_unfold _ surface index switchStrikes _ _ _ Hlast (Hgrid 0))
      as [[Hne _] | [_ (s & Hs & _)]]; [| by exists s].
    exfalso. apply Hne.
    destruct switchStrikes as [| x [| y l]]; cbn in Hlen; [| | lia].
    + by rewrite normalize_empty, length_replicate.
    + by rewrite normalize_single, length_replicate.
Qed.

Lemma tenor_loop_runs_on indexTenor maxCapFloorTenor fuel n :
  (months indexTenor <= 0)%Z →
  (Z.of_nat (2 + n) * months indexTenor <= months maxCapFloorTenor)%Z →
  tenor_loop fuel indexTenor maxCapFloorTenor
    (ladder indexTenor 1 (S n)) (ladder indexTenor 2 (S n)) = None.
Proof.
  intros Hneg. revert n. induction fuel as [| fuel IH]; intros n Hfit; [done |].
  rewrite tenor_loop_unfold, months_le. cbn [Nat.add].
  rewrite (months_times months months_add).
  destruct (Z.leb_spec (Z.of_nat (S (S (S n))) * months indexTenor)
              (months maxCapFloorTenor)) as [Hle | Hgt]; [| lia].
  apply IH. lia.
Qed.

(** X5: with an index tenor that is zero or negative, and no longer than
    half the last quoted maturity, the loop of the constructor never stops:
    no amount of fuel builds the stripper. *)
Theorem nonpositive_tenor_never_returns fuel surface index switchStrikes
    maxCapFloorTenor :
  last (optionTenors surface) = Some maxCapFloorTenor →
  (months (tenor index) <= 0)%Z →
  period_le (period_add (tenor index) (tenor index)) maxCapFloorTenor = true →
  OptionletStripper_new fuel surface index switchStrikes = OutOfFuel.
Proof.
  intros Hlast Hneg Hfirst. unfold OptionletStripper_new.
  rewrite Hlast, tenor_grid_unfold, Hfirst.
  rewrite (tenor_loop_runs_on _ _ fuel 0 Hneg); [done |].
  rewrite months_le, months_add in Hfirst. apply Z.leb_le in Hfirst. lia.
Qed.

End Scale.
End MoreConstructorFacts.

(** * Further properties of the pass *)

Section MorePassFacts.
Context {Period : Type} `{PeriodOps Period} `{!@Pricing Period}.
Implicit Types (s : @OptionletStripper Period) (d : Diagnostic).

(** The prices and the calls of the solver only read the members the pass
    does not assign. *)
Lemma same_grid_prices s s' i j :
  same_grid s s' →
  capfloorPrice_of s' i j = capfloorPrice_of s i j ∧
  optionletPrice_of s' i j = optionletPrice_of s i j ∧
  discount_of s' i j = discount_of s i j ∧
  (∀ annuity guess,
     inversion_of s' i j annuity guess = inversion_of s i j annuity guess).
Proof.
  intros Hgrid. destruct (same_grid_forms _ _ Hgrid)
    as (Hdate & _ & Hatm & Hstrike & Hside & _ & Hinstr).
  assert (∀ k, capfloorPrice_of s' k j = capfloorPrice_of s k j) as Hprice
    by (intros k; unfold capfloorPrice_of; by rewrite Hinstr).
  assert (optionletPrice_of s' i j = optionletPrice_of s i j) as Hoptionlet.
  { unfold optionletPrice_of, previousPrice_of. rewrite Hprice.
    destruct i as [| k]; [done | by rewrite Hprice]. }
  split_and!; [done | done | |].
  - unfold discount_of. by rewrite Hinstr, Hdate.
  - intros annuity guess. unfold inversion_of.
    by rewrite Hside, Hstrike, Hatm, Hoptionlet.
Qed.

(** X6: however the pass ends, it has set for every period the date of the
    last fixing of the cap of the cumulative length on the index (with the
    dummy strike 0.04 and the dummy volatility 0.20), the time from the
    reference date of the surface to that date in the day counter of the
    surface, and the forecast fixing of the index at that date; the vectors
    keep their sizes. *)
Theorem period_vectors_after_pass s i :
  sized s → i < nOptionletTenors_ s →
  let s' := members_after (performCalculations s) in
  optionletDates_ s' !!! i
  = lastFixingDate
      (MakeCapFloor Cap (capfloorLengths_ s !!! i) (index_ s) 0.04%float zero_days
         {| engineVolatility := 0.20%float;
            engineDayCounter := dayCounter (surface_ s) |}) ∧
  optionletTimes_ s' !!! i
  = yearFraction (dayCounter (surface_ s)) (referenceDate (surface_ s))
      (optionletDates_ s' !!! i) ∧
  atmOptionletRate s' !!! i = forecastFixing (index_ s) (optionletDates_ s' !!! i) ∧
  length (optionletDates_ s') = nOptionletTenors_ s ∧
  length (optionletTimes_ s') = nOptionletTenors_ s ∧
  length (atmOptionletRate s') = nOptionletTenors_ s ∧
  length (optionletAccrualPeriods_ s') = nOptionletTenors_ s.
Proof.
  intros Hsized Hi s'. subst s'.
  pose proof (performCalculations_spec s Hsized) as Hspec.
  assert (same_grid s (members_after (performCalculations s)) ∧
          sized (members_after (performCalculations s)) ∧
          periods_set s (members_after (performCalculations s)))
    as ([_ _ _ _ _ _ HN] & [] & Hperiods).
  { destruct (performCalculations s) as [[] s' | d s']; cbn [members_after].
    - by destruct Hspec.
    - destruct Hspec as (i0 & j0 & []). done. }
  destruct (Hperiods i Hi) as (Hdate & _ & Htime & Hatm).
  rewrite Hdate, Htime, Hatm, <- HN. split_and!; done.
Qed.

(** X7: after a completed pass every cell holds an instrument of the
    cumulative length of its period on the index, starting in 0 days, priced
    by an engine with the day counter of the surface and the volatility the
    surface gives (with extrapolation) for that length and the strike of the
    column; that volatility is the one stored in [capfloorVols_] and the
    stored cap/floor price is the NPV of that instrument. *)
Theorem cell_instruments_after_pass s s' i j :
  sized s → performCalculations s = Ok () s' →
  i < nOptionletTenors_ s → j < nStrikes_ s →
  ∃ instrument,
    mget (capfloors_ s') i j = Some instrument ∧
    capFloorTenor instrument = capfloorLengths_ s !!! i ∧
    capFloorIndex instrument = index_ s ∧
    forwardStart instrument = zero_days ∧
    engineDayCounter (pricingEngine instrument) = dayCounter (surface_ s) ∧
    engineVolatility (pricingEngine instrument) = mget (capfloorVols_ s') i j ∧
    mget (capfloorVols_ s') i j
    = volatility (surface_ s) (capfloorLengths_ s !!! i)
        (OptionletStripper_strikes s !!! j) true ∧
    mget (capfloorPrices_ s') i j = NPV instrument.
Proof.
  intros Hsized Hrun Hi Hj.
  destruct (completed_pass s s' i j Hsized Hrun Hi Hj)
    as (_ & _ & (Hvol & Hinstr & Hprice & _) & _).
  exists (instrument_of s i j). rewrite Hvol, Hprice. split_and!; done.
Qed.

(** X8: on a stripper whose surface has a strike, [nStrikes_] being the
    number of its strikes, the pass completes exactly when the solver
    returns for every cell (each called on the price of its optionlet, the
    annuity 0.5 times the discount factor and the standard deviation the
    cell holds when the pass starts). *)
Theorem pass_completes_iff s :
  sized s →
  nStrikes_ s = length (OptionletStripper_strikes s) → 0 < nStrikes_ s →
  completes (performCalculations s) = true ↔
  ∀ i j, i < nOptionletTenors_ s → j < nStrikes_ s →
    ∃ stdDev, solve s i j = inr stdDev.
Proof.
  intros Hsized _ _. pose proof (performCalculations_spec s Hsized) as Hspec.
  destruct (performCalculations s) as [[] s' | d s']; cbn [completes].
  - split; [| done]. intros _ i j Hi Hj.
    destruct Hspec as [_ _ _ _ Hdone _].
    destruct (Hdone i j Hi Hj) as (_ & Hsolve & _); [by left | by eexists].
  - split; [done |]. intros Hall.
    destruct Hspec as (i0 & j0 & [_ _ _ [Hi Hj] (what & Hsolve & _) _ _ _]).
    destruct (Hall i0 j0 Hi Hj) as [stdDev Hok]. congruence.
Qed.

(** X9: however the pass ends, it leaves the surface, the index, the
    numbers of strikes and of periods, the switch strikes, the optionlet
    tenors and the cumulative lengths as they were, so that [strikes()] and
    [surface()] answer the same before and after; and the sizes are kept. *)
Theorem pass_keeps_grid s :
  sized s →
  let s' := members_after (performCalculations s) in
  sized s' ∧
  OptionletStripper_strikes s' = OptionletStripper_strikes s ∧
  OptionletStripper_surface s' = OptionletStripper_surface s ∧
  index_ s' = index_ s ∧ nStrikes_ s' = nStrikes_ s ∧
  nOptionletTenors_ s' = nOptionletTenors_ s ∧
  switchStrikes_ s' = switchStrikes_ s ∧
  optionletTenors_ s' = optionletTenors_ s ∧
  capfloorLengths_ s' = capfloorLengths_ s.
Proof.
  intros Hsized s'. subst s'.
  pose proof (performCalculations_spec s Hsized) as Hspec.
  assert (same_grid s (members_after (performCalculations s)) ∧
          sized (members_after (performCalculations s))) as [[] ?].
  { destruct (performCalculations s) as [[] s' | d s']; cbn [members_after].
    - by destruct Hspec.
    - destruct Hspec as (i0 & j0 & []). done. }
  unfold OptionletStripper_strikes, OptionletStripper_surface.
  split_and!; congruence.
Qed.

(** X10: a second pass on the members a completed pass has left, when it
    completes too, writes the same market volatilities, instruments,
    cap/floor prices and optionlet prices and the same per-period vectors;
    its standard deviations are the answers of the solver started from the
    standard deviations of the first pass. *)
Theorem recomputation s s1 s2 i j :
  sized s → performCalculations s = Ok () s1 → performCalculations s1 = Ok () s2 →
  i < nOptionletTenors_ s → j < nStrikes_ s →
  mget (capfloorVols_ s2) i j = mget (capfloorVols_ s1) i j ∧
  mget (capfloors_ s2) i j = mget (capfloors_ s1) i j ∧
  mget (capfloorPrices_ s2) i j = mget (capfloorPrices_ s1) i j ∧
  mget (optionletPrices_ s2) i j = mget (optionletPrices_ s1) i j ∧
  optionletDates_ s2 !!! i = optionletDates_ s1 !!! i ∧
  optionletTimes_ s2 !!! i = optionletTimes_ s1 !!! i ∧
  atmOptionletRate s2 !!! i = atmOptionletRate s1 !!! i ∧
  optionletAccrualPeriods_ s2 !!! i = optionletAccrualPeriods_ s1 !!! i ∧
  inversion_of s i j (0.5 * discount_of s i j)%float (mget (optionletStDevs_ s1) i j)
  = inr (mget (optionletStDevs_ s2) i j).
Proof.
  intros Hsized Hrun1 Hrun2 Hi Hj.
  destruct (completed_pass s s1 i j Hsized Hrun1 Hi Hj)
    as (Hgrid & Hperiods1 & (HcV1 & Hcf1 & HcP1 & HoP1) & _).
  assert (sized s1) as Hsized1.
  { pose proof (performCalculations_spec s Hsized) as Hspec.
    rewrite Hrun1 in Hspec. by destruct Hspec. }
  pose proof Hgrid as [_ _ HM _ _ _ HN].
  destruct (completed_pass s1 s2 i j Hsized1 Hrun2)
    as (_ & Hperiods2 & (HcV2 & Hcf2 & HcP2 & HoP2) & Hsolve2 & _);
    [by rewrite HN | by rewrite HM |].
  destruct (same_grid_forms _ _ Hgrid)
    as (Hdate & Htime & Hatm & _ & _ & Hvol & Hinstr).
  destruct (same_grid_prices s s1 i j Hgrid) as (HcP & HoP & Hdiscount & Hinv).
  destruct (Hperiods1 i Hi) as (Hd1 & Ha1 & Ht1 & Hf1).
  destruct (Hperiods2 i ltac:(by rewrite HN)) as (Hd2 & Ha2 & Ht2 & Hf2).
  unfold solve in Hsolve2. rewrite Hinv, Hdiscount in Hsolve2.
  split_and!; [| | | | | | | | done]; congruence.
Qed.

End MorePassFacts.

(** * Further scenarios in whole months *)

Section MoreScenarios.
Import MonthPeriod Example.

Lemma flat_recompletes : performCalculations flat_stripped = Ok () flat_restripped.
Proof. unfold flat_restripped. apply completes_Ok. vm_compute. reflexivity. Defined.

Lemma constructed_members_witness :
  OptionletStripper_new 8 flat_surface (index 6) [] = Returns flat ∧
  sized flat ∧ 0 < nOptionletTenors_ flat ∧
  OptionletStripper_surface flat = flat_surface ∧ index_ flat = index 6 ∧
  nStrikes_ flat = length (OptionletStripper_strikes flat) ∧
  atmOptionletRate flat = replicate (nOptionletTenors_ flat) 0%float ∧
  optionletDates_ flat = replicate (nOptionletTenors_ flat) 0%Z ∧
  optionletTimes_ flat = replicate (nOptionletTenors_ flat) 0%float ∧
  optionletAccrualPeriods_ flat = replicate (nOptionletTenors_ flat) 0%float ∧
  capfloors_ flat = replicate (nOptionletTenors_ flat) [].
Proof.
  split; [exact flat_built |].
  exact (constructed_members 8 flat_surface (index 6) [] flat flat_built).
Defined.

Lemma ladder_is_maximal_witness :
  OptionletStripper_new 8 flat_surface (index 6) [] = Returns flat ∧
  last (optionTenors flat_surface) = Some (Y 2) ∧
  period_le (back (capfloorLengths_ flat)) (Y 2) = true ∧
  period_le (period_add (back (capfloorLengths_ flat)) (tenor (index 6))) (Y 2)
  = false.
Proof.
  split; [exact flat_built |]. split; [reflexivity |].
  exact (ladder_is_maximal 8 flat_surface (index 6) [] flat (Y 2) flat_built eq_refl).
Defined.

Lemma number_of_periods_witness :
  (∀ a b : t, months (period_add a b) = (months a + months b)%Z) ∧
  (∀ a b : t, period_le a b = (months a <=? months b)%Z) ∧
  OptionletStripper_new 8 flat_surface (index 6) [] = Returns flat ∧
  last (optionTenors flat_surface) = Some (Y 2) ∧
  (0 < months (tenor (index 6)))%Z ∧
  Z.of_nat (nOptionletTenors_ flat)
  = (months (Y 2) / months (tenor (index 6)) - 1)%Z.
Proof.
  split; [reflexivity |]. split; [reflexivity |].
  split; [exact flat_built |]. split; [reflexivity |].
  exact (number_of_periods months (λ _ _, eq_refl) (λ _ _, eq_refl)
           8 flat_surface (index 6) [] flat (Y 2) flat_built eq_refl).
Defined.

Lemma constructor_stops_witness :
  (∀ a b : t, months (period_add a b) = (months a + months b)%Z) ∧
  (∀ a b : t, period_le a b = (months a <=? months b)%Z) ∧
  last (optionTenors flat_surface) = Some (Y 2) ∧
  (0 < months (tenor (index 6)))%Z ∧
  period_le (period_add (tenor (index 6)) (tenor (index 6))) (Y 2) = true ∧
  ∃ fuel outcome,
    (∀ extra, OptionletStripper_new (fuel + extra) flat_surface (index 6) []
              = outcome) ∧
    ((∃ s, outcome = Returns s) ∨
     outcome = Throws "nOptionletTenors_!=switchStrikes_.size()") ∧
    (length ([] : list Rate) ≤ 1 → ∃ s, outcome = Returns s).
Proof.
  assert (0 < months (tenor (index 6)))%Z as Hpos by (cbn; lia).
  split; [reflexivity |]. split; [reflexivity |]. split; [reflexivity |].
  split; [exact Hpos |]. split; [reflexivity |].
  exact (constructor_stops months (λ _ _, eq_refl) (λ _ _, eq_refl)
           flat_surface (index 6) [] (Y 2) eq_refl Hpos eq_refl).
Defined.

Lemma nonpositive_tenor_never_returns_witness :
  (∀ a b : t, months (period_add a b) = (months a + months b)%Z) ∧
  (∀ a b : t, period_le a b = (months a <=? months b)%Z) ∧
  last (optionTenors flat_surface) = Some (Y 2) ∧
  (months (tenor (index 0)) <= 0)%Z ∧
  period_le (period_add (tenor (index 0)) (tenor (index 0))) (Y 2) = true ∧
  OptionletStripper_new 1000 flat_surface (index 0) [] = OutOfFuel.
Proof.
  assert (months (tenor (index 0)) <= 0)%Z as Hneg by (cbn; lia).
  split; [reflexivity |]. split; [reflexivity |]. split; [reflexivity |].
  split; [exact Hneg |]. split; [reflexivity |].
  exact (nonpositive_tenor_never_returns months (λ _ _, eq_refl) (λ _ _, eq_refl)
           1000 flat_surface (index 0) [] (Y 2) eq_refl Hneg eq_refl).
Defined.

Lemma period_vectors_after_pass_witness :
  sized falling ∧ 2 < nOptionletTenors_ falling ∧
  optionletDates_ falling_stripped !!! 2
  = lastFixingDate
      (MakeCapFloor Cap (capfloorLengths_ falling !!! 2) (index_ falling)
         0.04%float zero_days
         {| engineVolatility := 0.20%float;
            engineDayCounter := dayCounter (surface_ falling) |}) ∧
  optionletTimes_ falling_stripped !!! 2
  = yearFraction (dayCounter (surface_ falling)) (referenceDate (surface_ falling))
      (optionletDates_ falling_stripped !!! 2) ∧
  atmOptionletRate falling_stripped !!! 2
  = forecastFixing (index_ falling) (optionletDates_ falling_stripped !!! 2) ∧
  length (optionletDates_ falling_stripped) = nOptionletTenors_ falling ∧
  length (optionletTimes_ falling_stripped) = nOptionletTenors_ falling ∧
  length (atmOptionletRate falling_stripped) = nOptionletTenors_ falling ∧
  length (optionletAccrualPeriods_ falling_stripped) = nOptionletTenors_ falling.
Proof.
  assert (2 < nOptionletTenors_ falling) as Hi by (cbn; lia).
  split; [exact falling_sized |]. split; [exact Hi |].
  exact (period_vectors_after_pass falling 2 falling_sized Hi).
Defined.

Lemma cell_instruments_after_pass_witness :
  sized flat ∧ performCalculations flat = Ok () flat_stripped ∧
  2 < nOptionletTenors_ flat ∧ 1 < nStrikes_ flat ∧
  ∃ instrument,
    mget (capfloors_ flat_stripped) 2 1 = Some instrument ∧
    capFloorTenor instrument = capfloorLengths_ flat !!! 2 ∧
    capFloorIndex instrument = index_ flat ∧
    forwardStart instrument = zero_days ∧
    engineDayCounter (pricingEngine instrument) = dayCounter (surface_ flat) ∧
    engineVolatility (pricingEngine instrument)
    = mget (capfloorVols_ flat_stripped) 2 1 ∧
    mget (capfloorVols_ flat_stripped) 2 1
    = volatility (surface_ flat) (capfloorLengths_ flat !!! 2)
        (OptionletStripper_strikes flat !!! 1) true ∧
    mget (capfloorPrices_ flat_stripped) 2 1 = NPV instrument.
Proof.
  assert (2 < nOptionletTenors_ flat) as Hi by (cbn; lia).
  assert (1 < nStrikes_ flat) as Hj by (cbn; lia).
  split; [exact flat_sized |]. split; [exact flat_completes |].
  split; [exact Hi |]. split; [exact Hj |].
  exact (cell_instruments_after_pass flat flat_stripped 2 1 flat_sized
           flat_completes Hi Hj).
Defined.

Lemma pass_completes_iff_witness :
  sized falling ∧
  nStrikes_ falling = length (OptionletStripper_strikes falling) ∧
  0 < nStrikes_ falling ∧
  (completes (performCalculations falling) = true ↔
   ∀ i j, i < nOptionletTenors_ falling → j < nStrikes_ falling →
     ∃ stdDev, solve falling i j = inr stdDev).
Proof.
  assert (0 < nStrikes_ falling) as Hj by (cbn; lia).
  split; [exact falling_sized |]. split; [reflexivity |]. split; [exact Hj |].
  exact (pass_completes_iff falling falling_sized eq_refl Hj).
Defined.

Lemma pass_keeps_grid_witness :
  sized falling ∧
  sized falling_stripped ∧
  OptionletStripper_strikes falling_stripped = OptionletStripper_strikes falling ∧
  OptionletStripper_surface falling_stripped = OptionletStripper_surface falling ∧
  index_ falling_stripped = index_ falling ∧
  nStrikes_ falling_stripped = nStrikes_ falling ∧
  nOptionletTenors_ falling_stripped = nOptionletTenors_ falling ∧
  switchStrikes_ falling_stripped = switchStrikes_ falling ∧
  optionletTenors_ falling_stripped = optionletTenors_ falling ∧
  capfloorLengths_ falling_stripped = capfloorLengths_ falling.
Proof.
  split; [exact falling_sized |]. exact (pass_keeps_grid falling falling_sized).
Defined.

Lemma recomputation_witness :
  sized flat ∧ performCalculations flat = Ok () flat_stripped ∧
  performCalculations flat_stripped = Ok () flat_restripped ∧
  1 < nOptionletTenors_ flat ∧ 1 < nStrikes_ flat ∧
  mget (capfloorVols_ flat_restripped) 1 1 = mget (capfloorVols_ flat_stripped) 1 1 ∧
  mget (capfloors_ flat_restripped) 1 1 = mget (capfloors_ flat_stripped) 1 1 ∧
  mget (capfloorPrices_ flat_restripped) 1 1
  = mget (capfloorPrices_ flat_stripped) 1 1 ∧
  mget (optionletPrices_ flat_restripped) 1 1
  = mget (optionletPrices_ flat_stripped) 1 1 ∧
  optionletDates_ flat_restripped !!! 1 = optionletDates_ flat_stripped !!! 1 ∧
  optionletTimes_ flat_restripped !!! 1 = optionletTimes_ flat_stripped !!! 1 ∧
  atmOptionletRate flat_restripped !!! 1 = atmOptionletRate flat_stripped !!! 1 ∧
  optionletAccrualPeriods_ flat_restripped !!! 1
  = optionletAccrualPeriods_ flat_stripped !!! 1 ∧
  inversion_of flat 1 1 (0.5 * discount_of flat 1 1)%float
    (mget (optionletStDevs_ flat_stripped) 1 1)
  = inr (mget (optionletStDevs_ flat_restripped) 1 1).
Proof.
  assert (1 < nOptionletTenors_ flat) as Hi by (cbn; lia).
  assert (1 < nStrikes_ flat) as Hj by (cbn; lia).
  split; [exact flat_sized |]. split; [exact flat_completes |].
  split; [exact flat_recompletes |]. split; [exact Hi |]. split; [exact Hj |].
  exact (recomputation flat flat_stripped flat_restripped 1 1 flat_sized
           flat_completes flat_recompletes Hi Hj).
Defined.

End MoreScenarios.
